(** * Algebraic two-level method (dune/istl/paamg/twolevelmethod.hh)

    A shallow embedding of the level transfer policy, the one-step AMG coarse
    solver and the two-level preconditioner cycle, with the properties of the
    specification stated against it.

    Conventions.
    - [field_type] is a template parameter of the source; it is the class
      [FieldType] here, and no algebraic law is assumed unless a statement
      lists it.
    - A block vector is a [list K]; [v !! i] reads entry [i].
    - A call that dereferences a null [shared_ptr] or indexes a vector out of
      range has no defined result in C++; it is the outcome
      [Fault UndefinedBehaviour].
    - Collaborators that live in other headers (aggregation, renumbering, the
      recursive AMG, the smoother) are the fields of interface classes. *)

From Stdlib Require Import ZArith QArith.
From stdpp Require Import base option list.

Set Default Proof Using "Type".
Local Open Scope nat_scope.

(** ** Scalars *)

(** The [field_type] of the matrix and vector types. *)
Class FieldType (K : Type) := {
  kzero : K;
  kone : K;
  kadd : K → K → K;
  kmul : K → K → K
}.

#[export] Instance Z_FieldType : FieldType Z :=
  {| kzero := 0%Z; kone := 1%Z; kadd := Z.add; kmul := Z.mul |}.

(** ** Outcomes of a call *)

Inductive fault := AssertionFailed | UndefinedBehaviour.

Inductive outcome (A : Type) :=
  | Ok (a : A)
  | Fault (f : fault).
Arguments Ok {A} a.
Arguments Fault {A} f.

#[export] Instance outcome_ret : MRet outcome := λ A a, Ok a.
#[export] Instance outcome_bind : MBind outcome := λ A B k m,
  match m with
  | Ok a => k a
  | Fault f => Fault f
  end.

(** ** Block vectors *)

Section Vectors.
Context {K : Type} `{FieldType K}.

(** [v = 0]: every entry becomes zero, the size stays. *)
Definition assign_zero (v : list K) : list K := replicate (length v) kzero.

(** [v.resize(n)]: the vector has [n] entries afterwards. *)
Definition resize (n : nat) (v : list K) : list K :=
  take n v ++ replicate (n - length v) kzero.

(** Left-to-right accumulation, as a loop of [+=] from zero computes it. *)
Definition ksum (l : list K) : K := fold_left kadd l kzero.
End Vectors.

(** ** Aggregates map and the transfer between the levels *)

(** Modelled from the spec: the aggregates map (aggregates.hh is not part of
    the sources at hand).  An array indexed by fine unknown, valued by an
    aggregate id or by one of the two markers. *)
Inductive AggregateDescriptor :=
  | Aggregate (a : nat)
  | ISOLATED
  | SKIPPED.

#[export] Instance AggregateDescriptor_eq_dec : EqDecision AggregateDescriptor.
Proof. solve_decision. Defined.

Abbreviation AggregatesMap := (list AggregateDescriptor).

Module Transfer.
Section Transfer.
Context {K : Type} `{FieldType K}.

Fixpoint restrict_loop (i : nat) (aggregates : AggregatesMap)
    (fine : list K) (coarse : list K) : outcome (list K) :=
  match fine with
  | [] => Ok coarse
  | x :: fine' =>
      match aggregates !! i with
      | None => Fault UndefinedBehaviour
      | Some (Aggregate a) =>
          match coarse !! a with
          | None => Fault UndefinedBehaviour
          | Some y => restrict_loop (S i) aggregates fine' (<[a := kadd y x]> coarse)
          end
      | Some _ => restrict_loop (S i) aggregates fine' coarse
      end
  end.

(** Modelled from the spec: Transfer::restrictVector (transfer.hh is not
    part of the sources at hand).  For each aggregate the restricted value
    is the sum of the fine components over the unknowns of that aggregate;
    unknowns without an aggregate contribute nothing. *)
Definition restrictVector (aggregates : AggregatesMap)
    (coarse : list K) (fine : list K) : outcome (list K) :=
  restrict_loop 0 aggregates fine (assign_zero coarse).

Fixpoint prolongate_loop (i : nat) (aggregates : AggregatesMap)
    (coarse : list K) (damp : K) (fine : list K) : outcome (list K) :=
  match fine with
  | [] => Ok []
  | x :: fine' =>
      match aggregates !! i with
      | None => Fault UndefinedBehaviour
      | Some (Aggregate a) =>
          match coarse !! a with
          | None => Fault UndefinedBehaviour
          | Some y =>
              rest ← prolongate_loop (S i) aggregates coarse damp fine';
              Ok (kadd x (kmul damp y) :: rest)
          end
      | Some _ =>
          rest ← prolongate_loop (S i) aggregates coarse damp fine';
          Ok (x :: rest)
      end
  end.

(** Modelled from the spec: Transfer::prolongateVector (transfer.hh is not
    part of the sources at hand).  Every fine unknown of an aggregate gets
    [damp * coarse[aggregate]] added; unknowns without an aggregate get no
    correction.  The result is the updated fine vector. *)
Definition prolongateVector (aggregates : AggregatesMap)
    (coarse : list K) (fine : list K) (damp : K) : outcome (list K) :=
  prolongate_loop 0 aggregates coarse damp fine.
End Transfer.
End Transfer.

(** ** Matrices and assembled operators *)

(** A sparse matrix as far as this file looks at it: [N()] rows, [M()]
    columns and the entries. *)
Module Matrix.
Record t (K : Type) := Build { N : nat; M : nat; entry : nat → nat → K }.
Arguments Build {K} N M entry.
Arguments N {K} t.
Arguments M {K} t.
Arguments entry {K} t i j.
End Matrix.

(** An assembled linear operator (the template parameter [O]); [getmat]
    gives the matrix it wraps. *)
Record Operator (K : Type) := { getmat : Matrix.t K }.
Arguments getmat {K} o.

(** The unknowns that the map assigns to aggregate [a], in index order. *)
Definition members (a : nat) (aggregates : AggregatesMap) : list nat :=
  filter (λ i, aggregates !! i = Some (Aggregate a)) (seq 0 (length aggregates)).

(** The collaborators of createCoarseLevelSystem that are used as black
    boxes: the criterion with its damping factor, the aggregation and the
    renumbering of the aggregates. *)
Class Coarsening (K : Type) := {
  Criterion : Type;
  getProlongationDampingFactor : Criterion → K;
  (** [aggregatesMap.buildAggregates(matrix, graph, criterion, flag)]: fills
      the map and returns the four counts. *)
  buildAggregates :
    Matrix.t K → Criterion → bool → AggregatesMap → AggregatesMap * (Z * Z * Z * Z);
  (** [renumberer.coarsen(pinfo, graph, visited, aggregatesMap, pinfo, n)]:
      renumbers the map in place, may mark vertices visited and returns the
      number of aggregates. *)
  coarsen :
    Matrix.t K → list bool → AggregatesMap → Z → list bool * AggregatesMap * nat
}.

Module GalerkinProduct.
Section GalerkinProduct.
Context {K : Type} `{FieldType K}.

(** Modelled from the spec: GalerkinProduct::build (galerkin.hh is not part
    of the sources at hand).  The coarse matrix has one row and one column
    per aggregate; its values are set by [calculate]. *)
Definition build (fine : Matrix.t K) (visited : list bool)
    (aggregates : AggregatesMap) (size : nat) : Matrix.t K :=
  Matrix.Build size size (λ _ _, kzero).

(** Modelled from the spec: GalerkinProduct::calculate (galerkin.hh is not
    part of the sources at hand).  The Galerkin product with the
    restriction and prolongation implied by the aggregates: entry [(a, b)]
    sums the fine entries [(i, j)] with [i] in [a] and [j] in [b]. *)
Definition calculate (fine : Matrix.t K) (aggregates : AggregatesMap)
    (coarse : Matrix.t K) : Matrix.t K :=
  Matrix.Build (Matrix.N coarse) (Matrix.M coarse)
    (λ a b, ksum (i ← members a aggregates;
                  j ← members b aggregates;
                  [Matrix.entry fine i j])).
End GalerkinProduct.
End GalerkinProduct.

(** ** AggregationLevelTransferPolicy *)

Module AggregationLevelTransferPolicy.
Section AggregationLevelTransferPolicy.
Context {K : Type} `{FieldType K} `{Coarsening K}.

(** The members [rhs_], [lhs_] and [operator_] come from the base class
    LevelTransferPolicy.  A [shared_ptr] that was never reset is [None], and
    so is [prolongDamp_] as long as nothing was assigned to it. *)
Record t := Build {
  rhs_ : list K;
  lhs_ : list K;
  operator_ : option (Operator K);
  prolongDamp_ : option K;
  aggregatesMap_ : option AggregatesMap;
  criterion_ : Criterion;
  matrix_ : option (Matrix.t K)
}.

(** The constructor stores the criterion; every other member is default
    constructed. *)
Definition new (crit : Criterion) : t :=
  Build [] [] None None None crit None.

Definition getCoarseLevelOperator (self : t) : option (Operator K) := operator_ self.
Definition getCoarseLevelRhs (self : t) : list K := rhs_ self.
Definition getCoarseLevelLhs (self : t) : list K := lhs_ self.

(** Writes through the references that getCoarseLevelLhs and
    getCoarseLevelRhs hand out. *)
Definition setCoarseLevel (lhs rhs : list K) (self : t) : t :=
  Build rhs lhs (operator_ self) (prolongDamp_ self) (aggregatesMap_ self)
    (criterion_ self) (matrix_ self).

(** [new AggregatesMap(n)]: [n] entries, none of them assigned to an
    aggregate yet. *)
Definition AggregatesMap_new (n : nat) : AggregatesMap := replicate n SKIPPED.

(** The matrix graph has one vertex per row of the matrix, so
    [pg.maxVertex()+1] is [N()].  The line printed to [std::cout] is not part
    of the model. *)
Definition createCoarseLevelSystem (fineOperator : Operator K) (self : t) : t :=
  let prolongDamp := getProlongationDampingFactor (criterion_ self) in
  let aggregatesMap := AggregatesMap_new (Matrix.N (getmat fineOperator)) in
  let '(aggregatesMap, (noAggregates, isoAggregates, oneAggregates, skippedAggregates)) :=
    buildAggregates (getmat fineOperator) (criterion_ self) true aggregatesMap in
  let excluded := replicate (Matrix.N (getmat fineOperator)) false in
  let '(excluded, aggregatesMap, aggregates) :=
    coarsen (getmat fineOperator) excluded aggregatesMap noAggregates in
  let visited := (λ _, false) <$> excluded in
  let matrix :=
    GalerkinProduct.calculate (getmat fineOperator) aggregatesMap
      (GalerkinProduct.build (getmat fineOperator) visited aggregatesMap aggregates) in
  Build (resize (Matrix.N matrix) (rhs_ self))
        (resize (Matrix.M matrix) (lhs_ self))
        (Some {| getmat := matrix |})
        (Some prolongDamp)
        (Some aggregatesMap)
        (criterion_ self)
        (Some matrix).

Definition moveToCoarseLevel (fineRhs : list K) (self : t) : outcome t :=
  match aggregatesMap_ self with
  | None => Fault UndefinedBehaviour
  | Some aggregates =>
      rhs ← Transfer.restrictVector aggregates (rhs_ self) fineRhs;
      Ok (Build rhs (assign_zero (lhs_ self)) (operator_ self) (prolongDamp_ self)
            (aggregatesMap_ self) (criterion_ self) (matrix_ self))
  end.

(** Returns the updated [fineLhs]. *)
Definition moveToFineLevel (fineLhs : list K) (self : t) : outcome (list K) :=
  match aggregatesMap_ self, prolongDamp_ self with
  | Some aggregates, Some damp =>
      Transfer.prolongateVector aggregates (lhs_ self) fineLhs damp
  | _, _ => Fault UndefinedBehaviour
  end.
End AggregationLevelTransferPolicy.
Arguments t K {_}.
End AggregationLevelTransferPolicy.

(** ** OneStepAMGCoarseSolverPolicy *)

(** The recursive multilevel solver [AMG<O,X,S>], used as a black box with
    its constructor and the three phases of a preconditioner. *)
Class AMGSolver (K : Type) := {
  AMG : Type;
  AMGCriterion : Type;
  SmootherArgs : Type;
  AMG_new : Operator K → AMGCriterion → SmootherArgs → AMG;
  AMG_pre : list K → list K → AMG → list K * list K * AMG;
  AMG_apply : list K → list K → AMG → list K * AMG;
  AMG_post : list K → AMG → list K * AMG
}.

(** The [InverseOperatorResult] of solver.hh with its default constructor;
    the type is a parameter. *)
Class ResultType := {
  InverseOperatorResult : Type;
  InverseOperatorResult_new : InverseOperatorResult
}.

Module OneStepAMGCoarseSolverPolicy.

(** A call that reached the wrapped AMG, with the arguments it was given. *)
Inductive AMGCall (K : Type) :=
  | CallPre (x b : list K)
  | CallApply (x b : list K)
  | CallPost (x : list K).
Arguments CallPre {K} x b.
Arguments CallApply {K} x b.
Arguments CallPost {K} x.

Definition is_pre {K} (c : AMGCall K) : bool :=
  match c with CallPre _ _ => true | _ => false end.
Definition is_apply {K} (c : AMGCall K) : bool :=
  match c with CallApply _ _ => true | _ => false end.
Definition is_post {K} (c : AMGCall K) : bool :=
  match c with CallPost _ => true | _ => false end.

Section AMGType.
Context {K : Type} `{AMGSolver K}.

(** The AMG object behind [amg_], together with the calls made on it so
    far, oldest first. *)
Record AMGType := { solver : AMG; calls : list (AMGCall K) }.

Definition AMGType_new (op : Operator K) (c : AMGCriterion) (args : SmootherArgs)
    : AMGType :=
  {| solver := AMG_new op c args; calls := [] |}.

Definition pre (x b : list K) (amg : AMGType) : list K * list K * AMGType :=
  let '(x', b', s) := AMG_pre x b (solver amg) in
  (x', b', {| solver := s; calls := calls amg ++ [CallPre x b] |}).

Definition apply (x b : list K) (amg : AMGType) : list K * AMGType :=
  let '(x', s) := AMG_apply x b (solver amg) in
  (x', {| solver := s; calls := calls amg ++ [CallApply x b] |}).

Definition post (x : list K) (amg : AMGType) : list K * AMGType :=
  let '(x', s) := AMG_post x (solver amg) in
  (x', {| solver := s; calls := calls amg ++ [CallPost x] |}).
End AMGType.
Arguments AMGType K {_}.

Module AMGInverseOperator.
Section AMGInverseOperator.
Context {K : Type} `{AMGSolver K}.

Record t := Build {
  x_ : option (list K);
  amg_ : AMGType K;
  first_ : bool
}.

Definition new (amg : AMGType K) : t := Build None amg true.

(** [apply(x, b, reduction, res)]; the four results are [x], [b], [res]
    and the object after the call. *)
Definition apply {Res : Type} (x b : list K) (reduction : Q) (res : Res) (self : t)
    : list K * list K * Res * t :=
  let '(x, b, self) :=
    if first_ self then
      let '(x, b, amg) := pre x b (amg_ self) in
      (x, b, Build (Some x) amg false)
    else (x, b, self) in
  let '(x, amg) := OneStepAMGCoarseSolverPolicy.apply x b (amg_ self) in
  (x, b, res, Build (x_ self) amg (first_ self)).

(** [apply(x, b, res)]. *)
Definition apply3 {Res : Type} (x b : list K) (res : Res) (self : t)
    : list K * list K * Res * t :=
  apply x b (1 # 100000000)%Q res self.

(** The destructor; its result is the AMG object as the destructor body
    leaves it. *)
Definition destructor (self : t) : outcome (AMGType K) :=
  if negb (first_ self) then
    match x_ self with
    | None => Fault UndefinedBehaviour
    | Some x => Ok (post x (amg_ self)).2
    end
  else Ok (amg_ self).
End AMGInverseOperator.
Arguments t K {_}.
End AMGInverseOperator.

Section Policy.
Context {K : Type} `{FieldType K} `{Coarsening K} `{AMGSolver K}.

Record t := Build {
  coarseOperator_ : option (Operator K);
  smootherArgs_ : SmootherArgs;
  criterion_ : AMGCriterion
}.

Definition new (args : SmootherArgs) (c : AMGCriterion) : t := Build None args c.

(** Returns the new inverse operator and the policy, which now shares the
    coarse operator. *)
Definition createCoarseLevelSolver (transferPolicy : AggregationLevelTransferPolicy.t K)
    (self : t) : outcome (AMGInverseOperator.t K * t) :=
  let coarseOperator :=
    AggregationLevelTransferPolicy.getCoarseLevelOperator transferPolicy in
  match coarseOperator with
  | None => Fault UndefinedBehaviour
  | Some op =>
      let amg := AMGType_new op (criterion_ self) (smootherArgs_ self) in
      let inv := AMGInverseOperator.new amg in
      Ok (inv, Build coarseOperator (smootherArgs_ self) (criterion_ self))
  end.
End Policy.
Arguments t K {_}.
End OneStepAMGCoarseSolverPolicy.

(** ** TwoLevelMethod *)

(** The fine level smoother (the template parameter [S]) as presmooth uses
    it: one sweep on the vectors that the level context points to, in the
    order iterate [lhs], residual [rhs], [update]. *)
Class Smoothing (K : Type) := {
  Smoother : Type;
  sweep : Smoother → Operator K → list K * list K * list K → list K * list K * list K
}.

Module TwoLevelMethod.
Section TwoLevelMethod.
Context {K : Type} `{FieldType K} `{Coarsening K} `{AMGSolver K}
        `{Smoothing K} `{ResultType}.

(** The vectors a call of [apply] can reach: the objects of the caller, by
    address, and the two locals [u] and [rhs]. *)
Inductive vref :=
  | Caller (a : nat)
  | LocalU
  | LocalRhs.

Record Memory := {
  objects : nat → list K;
  local_u : list K;
  local_rhs : list K
}.

Definition read (m : Memory) (p : vref) : list K :=
  match p with
  | Caller a => objects m a
  | LocalU => local_u m
  | LocalRhs => local_rhs m
  end.

Definition write (p : vref) (x : list K) (m : Memory) : Memory :=
  match p with
  | Caller a =>
      {| objects := λ a', if decide (a' = a) then x else objects m a';
         local_u := local_u m; local_rhs := local_rhs m |}
  | LocalU => {| objects := objects m; local_u := x; local_rhs := local_rhs m |}
  | LocalRhs => {| objects := objects m; local_u := local_u m; local_rhs := x |}
  end.

(** [pinfo] points to a [SequentialInformation], which has no state. *)
Record LevelContext := {
  smoother : Smoother;
  lhs : vref;
  rhs : vref;
  update : vref;
  matrix : Operator K
}.

(** Modelled from the spec: presmooth (declared in amg.hh, which is not
    part of the sources at hand).  It runs [steps] sweeps of the bound
    smoother; each sweep updates the iterate [*context.lhs] and refreshes
    the residual [*context.rhs].  What a sweep computes is the interface
    [Smoothing]; a sweep may also write [*context.update], the third vector
    the context lets it reach. *)
Definition presmooth_sweep (context : LevelContext) (m : Memory) : Memory :=
  let '(l, r, upd) :=
    sweep (smoother context) (matrix context)
      (read m (lhs context), read m (rhs context), read m (update context)) in
  write (update context) upd (write (rhs context) r (write (lhs context) l m)).

Definition presmooth (context : LevelContext) (steps : nat) (m : Memory) : Memory :=
  Nat.iter steps (presmooth_sweep context) m.

Record t := Build {
  operator_ : Operator K;
  coarseSolver_ : OneStepAMGCoarseSolverPolicy.AMGInverseOperator.t K;
  smoother_ : Smoother;
  policy_ : AggregationLevelTransferPolicy.t K;
  preSteps_ : nat;
  postSteps_ : nat
}.

(** The constructor, with OneStepAMGCoarseSolverPolicy for the template
    parameter [CoarseSolverPolicy]. *)
Definition new (op : Operator K) (smoother : Smoother)
    (policy : AggregationLevelTransferPolicy.t K)
    (coarsePolicy : OneStepAMGCoarseSolverPolicy.t K)
    (preSteps postSteps : nat) : outcome (t * OneStepAMGCoarseSolverPolicy.t K) :=
  let policy := AggregationLevelTransferPolicy.createCoarseLevelSystem op policy in
  '(coarseSolver, coarsePolicy) ←
    OneStepAMGCoarseSolverPolicy.createCoarseLevelSolver policy coarsePolicy;
  Ok (Build op coarseSolver smoother policy preSteps postSteps, coarsePolicy).

Definition pre (x b : list K) (self : t) : list K * list K * t := (x, b, self).

Definition post (x : list K) (self : t) : list K * t := (x, self).

(** The body of [apply(v, d)] up to its closing brace: [v] and [d] are the
    addresses of the caller's vectors, and the result still holds the
    locals [u] and [rhs]. *)
Definition apply_body (v d : nat) (self : t) (objs : nat → list K)
    : outcome (t * Memory) :=
  let m := {| objects := objs; local_u := objs v; local_rhs := objs d |} in
  let context :=
    {| smoother := smoother_ self; lhs := LocalU; rhs := LocalRhs;
       update := Caller v; matrix := operator_ self |} in
  (* Presmoothing *)
  let m := presmooth context (preSteps_ self) m in
  (* Coarse grid correction *)
  policy ← AggregationLevelTransferPolicy.moveToCoarseLevel
             (read m (rhs context)) (policy_ self);
  let res := InverseOperatorResult_new in
  let '(clhs, crhs, res, coarseSolver) :=
    OneStepAMGCoarseSolverPolicy.AMGInverseOperator.apply3
      (AggregationLevelTransferPolicy.getCoarseLevelLhs policy)
      (AggregationLevelTransferPolicy.getCoarseLevelRhs policy)
      res (coarseSolver_ self) in
  let policy := AggregationLevelTransferPolicy.setCoarseLevel clhs crhs policy in
  fineLhs ← AggregationLevelTransferPolicy.moveToFineLevel
              (read m (lhs context)) policy;
  let m := write (lhs context) fineLhs m in
  (* Postsmoothing *)
  let m := presmooth context (postSteps_ self) m in
  Ok (Build (operator_ self) coarseSolver (smoother_ self) policy
        (preSteps_ self) (postSteps_ self), m).

(** [apply(v, d)]: the locals are gone on return; what is left are the
    caller's vectors and the preconditioner. *)
Definition apply (v d : nat) (self : t) (objs : nat → list K)
    : outcome (t * (nat → list K)) :=
  '(self, m) ← apply_body v d self objs;
  Ok (self, objects m).
End TwoLevelMethod.
Arguments t K {_ _ _}.
End TwoLevelMethod.

(** ** A small instance over the integers

    Collaborators simple enough to run the model on concrete vectors: the
    criterion carries the damping factor and the aggregation it will
    produce, the coarse AMG solves with the identity ([x := b]), the smoother
    does nothing, and the result record is its [converged] flag. *)

Module Fixture.
Record ToyCriterion := {
  toy_damp : Z;
  toy_map : AggregatesMap;
  toy_count : nat
}.

#[export] Instance toy_coarsening : Coarsening Z := {|
  Criterion := ToyCriterion;
  getProlongationDampingFactor := toy_damp;
  buildAggregates := λ _ c _ _, (toy_map c, (Z.of_nat (toy_count c), 0%Z, 0%Z, 0%Z));
  coarsen := λ _ visited aggregates n, (visited, aggregates, Z.to_nat n)
|}.

#[export] Instance toy_amg : AMGSolver Z := {|
  AMG := unit;
  AMGCriterion := unit;
  SmootherArgs := unit;
  AMG_new := λ _ _ _, tt;
  AMG_pre := λ x b s, (x, b, s);
  AMG_apply := λ x b s, (b, s);
  AMG_post := λ x s, (x, s)
|}.

#[export] Instance toy_smoothing : Smoothing Z := {|
  Smoother := unit;
  sweep := λ _ _ vs, vs
|}.

#[export] Instance toy_result : ResultType := {|
  InverseOperatorResult := bool;
  InverseOperatorResult_new := false
|}.

(** The [n] by [n] identity matrix. *)
Definition identity (n : nat) : Operator Z :=
  {| getmat := Matrix.Build n n (λ i j, if decide (i = j) then 1%Z else 0%Z) |}.

(** A transfer policy whose aggregation puts the unknowns into the
    aggregates listed in [map]. *)
Definition policy (damp : Z) (map : AggregatesMap) (count : nat)
    : AggregationLevelTransferPolicy.t Z :=
  AggregationLevelTransferPolicy.new
    {| toy_damp := damp; toy_map := map; toy_count := count |}.

(** The policy after createCoarseLevelSystem on the identity of size [n]. *)
Definition coarse_policy (n : nat) (damp : Z) (map : AggregatesMap) (count : nat)
    : AggregationLevelTransferPolicy.t Z :=
  AggregationLevelTransferPolicy.createCoarseLevelSystem (identity n)
    (policy damp map count).

(** The coarse solver handle as createCoarseLevelSolver builds it. *)
Definition handle : OneStepAMGCoarseSolverPolicy.AMGInverseOperator.t Z :=
  OneStepAMGCoarseSolverPolicy.AMGInverseOperator.new
    (OneStepAMGCoarseSolverPolicy.AMGType_new (identity 1) tt tt).

(** The two-level method on the identity of size [n] as its constructor
    builds it. *)
Definition two_level (n : nat) (damp : Z) (map : AggregatesMap) (count : nat)
    (preSteps postSteps : nat) : outcome (TwoLevelMethod.t Z) :=
  '(method, _) ← TwoLevelMethod.new (identity n) tt (policy damp map count)
                   (OneStepAMGCoarseSolverPolicy.new tt tt) preSteps postSteps;
  Ok method.

(** The caller's vectors: [v] at address 0, [d] at address 1. *)
Definition objects (v d : list Z) : nat → list Z :=
  λ a, match a with 0 => v | 1 => d | _ => [] end.
End Fixture.

(** ** Vocabulary of the statements *)

(** Every aggregate id of the map is an index into a coarse vector of [n]
    entries. *)
Definition in_range (n : nat) (e : AggregateDescriptor) : Prop :=
  match e with
  | Aggregate a => a < n
  | _ => True
  end.

Definition well_indexed (aggregates : AggregatesMap) (n : nat) : Prop :=
  Forall (in_range n) aggregates.

Section Vocabulary.
Context {K : Type} `{FieldType K}.

(** The components of [fine] on the unknowns of aggregate [a], in index
    order; the restricted value of the spec is their [ksum]. *)
Definition aggregate_values (a : nat) (aggregates : AggregatesMap)
    (fine : list K) : list K :=
  omap (λ i, fine !! i) (members a aggregates).

(** The same components, read off while walking [fine] from index [i]. *)
Fixpoint picked (a i : nat) (aggregates : AggregatesMap) (fine : list K) : list K :=
  match fine with
  | [] => []
  | x :: fine' =>
      if decide (aggregates !! i = Some (Aggregate a))
      then x :: picked a (S i) aggregates fine'
      else picked a (S i) aggregates fine'
  end.

(** What prolongation leaves in an entry that held [x], at unknown [i]. *)
Definition prolongated (aggregates : AggregatesMap) (coarse : list K) (damp : K)
    (i : nat) (x : K) : K :=
  match aggregates !! i with
  | Some (Aggregate a) =>
      match coarse !! a with
      | Some y => kadd x (kmul damp y)
      | None => x
      end
  | _ => x
  end.
End Vocabulary.

Section PolicyVocabulary.
Context {K : Type} `{FieldType K} `{Coarsening K}.

(** The map and the number of aggregates that the aggregation followed by
    the renumbering gives for a fine matrix and a criterion. *)
Definition renumbered (fine : Matrix.t K) (crit : Criterion) : AggregatesMap * nat :=
  let built :=
    buildAggregates fine crit true
      (AggregationLevelTransferPolicy.AggregatesMap_new (Matrix.N fine)) in
  let coarsened :=
    coarsen fine (replicate (Matrix.N fine) false) built.1 built.2.1.1.1 in
  (coarsened.1.2, coarsened.2).

(** The spec's reading of restriction followed by prolongation: with the
    coarse solve replaced by the identity and the fine vector starting from
    zero, every unknown of an aggregate ends with the value [c] that the
    residual [fine] has on that aggregate. *)
Definition reproduces (self : AggregationLevelTransferPolicy.t K)
    (aggregates : AggregatesMap) (c : nat → K) (fine : list K) : Prop :=
  ∃ down out,
    AggregationLevelTransferPolicy.moveToCoarseLevel fine self = Ok down ∧
    AggregationLevelTransferPolicy.moveToFineLevel
      (replicate (length aggregates) kzero)
      (AggregationLevelTransferPolicy.setCoarseLevel
         (AggregationLevelTransferPolicy.rhs_ down)
         (AggregationLevelTransferPolicy.rhs_ down) down) = Ok out ∧
    ∀ i a, aggregates !! i = Some (Aggregate a) → out !! i = Some (c a).

(** The spec's reading of a transfer call made too early: the call is
    caught by an assertion. *)
Definition asserts_sequencing (self : AggregationLevelTransferPolicy.t K)
    (fine : list K) : Prop :=
  AggregationLevelTransferPolicy.moveToCoarseLevel fine self = Fault AssertionFailed ∧
  AggregationLevelTransferPolicy.moveToFineLevel fine self = Fault AssertionFailed.
End PolicyVocabulary.

Section HandleVocabulary.
Context {K : Type} `{AMGSolver K}.
Import OneStepAMGCoarseSolverPolicy.

(** How many calls of one kind the AMG has seen. *)
Definition count_calls (kind : AMGCall K → bool) (l : list (AMGCall K)) : nat :=
  length (List.filter kind l).

(** One call of the handle by its user: the vectors, and the reduction
    when the four-argument overload is meant. *)
Definition call (c : list K * list K * option Q) (self : AMGInverseOperator.t K)
    : AMGInverseOperator.t K :=
  match c with
  | (x, b, Some reduction) => (AMGInverseOperator.apply x b reduction tt self).2
  | (x, b, None) => (AMGInverseOperator.apply3 x b tt self).2
  end.

(** Consecutive calls. *)
Definition run (cs : list (list K * list K * option Q))
    (self : AMGInverseOperator.t K) : AMGInverseOperator.t K :=
  fold_left (λ s c, call c s) cs self.

(** The reading of [apply(lhs, rhs, result)] as a call that reports: what
    is in [result] afterwards comes from the solve, whatever the caller had
    left there. *)
Definition reports_into_result (Res : Type) : Prop :=
  ∀ (x b : list K) (res res' : Res) (self : AMGInverseOperator.t K),
    (AMGInverseOperator.apply3 x b res self).1.2
    = (AMGInverseOperator.apply3 x b res' self).1.2.
End HandleVocabulary.

Section CycleVocabulary.
Context {K : Type} `{FieldType K} `{Coarsening K} `{AMGSolver K}
        `{Smoothing K} `{ResultType}.

(** The memory at the entry of [apply(v, d)], after the two copies. *)
Definition entry_memory (v d : nat) (objs : nat → list K) : TwoLevelMethod.Memory :=
  {| TwoLevelMethod.objects := objs;
     TwoLevelMethod.local_u := objs v;
     TwoLevelMethod.local_rhs := objs d |}.

(** The level context that [apply(v, d)] fills in. *)
Definition level_context (v : nat) (self : TwoLevelMethod.t K)
    : TwoLevelMethod.LevelContext :=
  {| TwoLevelMethod.smoother := TwoLevelMethod.smoother_ self;
     TwoLevelMethod.lhs := TwoLevelMethod.LocalU;
     TwoLevelMethod.rhs := TwoLevelMethod.LocalRhs;
     TwoLevelMethod.update := TwoLevelMethod.Caller v;
     TwoLevelMethod.matrix := TwoLevelMethod.operator_ self |}.

(** The memory when the presmoothing of [apply(v, d)] is done. *)
Definition presmoothed (v d : nat) (self : TwoLevelMethod.t K) (objs : nat → list K)
    : TwoLevelMethod.Memory :=
  TwoLevelMethod.presmooth (level_context v self) (TwoLevelMethod.preSteps_ self)
    (entry_memory v d objs).

(** Consecutive calls of [apply], each with the addresses of its [v] and
    [d]. *)
Fixpoint cycles (cs : list (nat * nat)) (self : TwoLevelMethod.t K)
    (objs : nat → list K) : outcome (TwoLevelMethod.t K * (nat → list K)) :=
  match cs with
  | [] => Ok (self, objs)
  | (v, d) :: cs =>
      '(self, objs) ← TwoLevelMethod.apply v d self objs;
      cycles cs self objs
  end.

(** A sweep of the smoother returns vectors of the sizes it was given. *)
Definition sweep_keeps_sizes : Prop :=
  ∀ (s : Smoother) (op : Operator K) (l r u : list K),
    length (sweep s op (l, r, u)).1.1 = length l ∧
    length (sweep s op (l, r, u)).1.2 = length r ∧
    length (sweep s op (l, r, u)).2 = length u.

(** On vectors of one size the AMG's [pre] and [apply] return vectors of
    that size. *)
Definition amg_keeps_sizes : Prop :=
  ∀ (x b : list K) (s : AMG),
    length x = length b →
    length (AMG_pre x b s).1.1 = length x ∧
    length (AMG_pre x b s).1.2 = length b ∧
    length (AMG_apply x b s).1 = length x.

(** The transfer policy of the method holds a coarse system for the
    aggregates map [aggregates]: the pointers are set, the coarse vectors
    have one size and every aggregate id indexes them. *)
Definition ready (aggregates : AggregatesMap) (self : TwoLevelMethod.t K) : Prop :=
  AggregationLevelTransferPolicy.aggregatesMap_ (TwoLevelMethod.policy_ self)
  = Some aggregates ∧
  is_Some (AggregationLevelTransferPolicy.prolongDamp_ (TwoLevelMethod.policy_ self)) ∧
  length (AggregationLevelTransferPolicy.lhs_ (TwoLevelMethod.policy_ self))
  = length (AggregationLevelTransferPolicy.rhs_ (TwoLevelMethod.policy_ self)) ∧
  well_indexed aggregates
    (length (AggregationLevelTransferPolicy.rhs_ (TwoLevelMethod.policy_ self))).
End CycleVocabulary.

(** Two unknowns in one aggregate on the identity of size two: the method as
    its constructor builds it, with one sweep before and after the
    correction, and the vectors [v = (0, 0)] and [d = (5, 7)] of a caller. *)
Module Scenario.
Definition pair_map : AggregatesMap := [Aggregate 0; Aggregate 0].

Definition method : outcome (TwoLevelMethod.t Z) :=
  Fixture.two_level 2 1 pair_map 1 1 1.

Definition vectors : nat → list Z := Fixture.objects [0; 0]%Z [5; 7]%Z.
End Scenario.

(** One vector passed as both [v] and [d], with a smoother that is exact on
    the identity and hands its correction on as presmooth's update: a sweep
    takes the residual as the new iterate, adds it to the update and leaves
    the residual zero. *)
Module Aliased.
Definition accumulating : Smoothing Z := {|
  Smoother := unit;
  sweep := λ _ _ vs,
    (vs.1.2, (λ _, 0%Z) <$> vs.1.2, zip_with Z.add vs.2 vs.1.2)
|}.

Definition method
    : outcome (@TwoLevelMethod.t Z Fixture.toy_coarsening Fixture.toy_amg accumulating) :=
  '(method, _) ←
    @TwoLevelMethod.new Z Z_FieldType Fixture.toy_coarsening Fixture.toy_amg
      accumulating (Fixture.identity 2) tt
      (Fixture.policy 1 Scenario.pair_map 1)
      (@OneStepAMGCoarseSolverPolicy.new Z Fixture.toy_amg tt tt) 1 1;
  Ok method.

Definition vectors : nat → list Z :=
  λ a, match a with 0 => [5; 7]%Z | _ => [] end.
End Aliased.

(** * Properties *)

(** ** Block vectors and the transfer loops *)

Section VectorFacts.
Context {K : Type} `{FieldType K}.

Lemma length_resize (n : nat) (v : list K) : length (resize n v) = n.
Proof.
  unfold resize. rewrite length_app, length_take, length_replicate. lia.
Qed.

Lemma length_assign_zero (v : list K) : length (assign_zero v) = length v.
Proof. apply length_replicate. Qed.

Lemma assign_zero_length (v w : list K) :
  length v = length w → assign_zero v = assign_zero w.
Proof. unfold assign_zero. by intros ->. Qed.
End VectorFacts.

Lemma well_indexed_lookup (aggregates : AggregatesMap) (n i a : nat) :
  well_indexed aggregates n → aggregates !! i = Some (Aggregate a) → a < n.
Proof.
  intros Hwf Hi. unfold well_indexed in Hwf. rewrite Forall_lookup in Hwf.
  exact (Hwf i (Aggregate a) Hi).
Qed.

Section TransferFacts.
Context {K : Type} `{FieldType K}.
Implicit Types (aggregates : AggregatesMap) (fine coarse : list K).

Lemma restrict_loop_spec aggregates fine : ∀ i coarse,
  i + length fine ≤ length aggregates →
  well_indexed aggregates (length coarse) →
  ∃ coarse',
    Transfer.restrict_loop i aggregates fine coarse = Ok coarse' ∧
    length coarse' = length coarse ∧
    ∀ a, coarse' !! a
         = (λ y, fold_left kadd (picked a i aggregates fine) y) <$> coarse !! a.
Proof.
  induction fine as [|x fine IH]; intros i coarse Hlen Hwf; simpl.
  - exists coarse. split_and!; [done..|]. intros a. by destruct (coarse !! a).
  - simpl in Hlen.
    destruct (lookup_lt_is_Some_2 aggregates i) as [e He]; [lia|].
    rewrite He. destruct e as [a0| |].
    + assert (a0 < length coarse) as Ha0 by (by eapply well_indexed_lookup).
      destruct (lookup_lt_is_Some_2 coarse a0) as [y Hy]; [done|].
      rewrite Hy.
      destruct (IH (S i) (<[a0:=kadd y x]> coarse)) as (coarse' & Hrun & Hl & Hval).
      { lia. } { by rewrite length_insert. }
      exists coarse'. split_and!; [done|by rewrite Hl, length_insert|].
      intros a. rewrite Hval. destruct (decide (a = a0)) as [->|Hne].
      * rewrite list_lookup_insert_eq, Hy by done.
        rewrite decide_True by done. done.
      * rewrite list_lookup_insert_ne by done.
        rewrite decide_False by congruence. done.
    + destruct (IH (S i) coarse) as (coarse' & Hrun & Hl & Hval); [lia|done|].
      exists coarse'. split_and!; [done..|].
      intros a. rewrite Hval, decide_False by congruence. done.
    + destruct (IH (S i) coarse) as (coarse' & Hrun & Hl & Hval); [lia|done|].
      exists coarse'. split_and!; [done..|].
      intros a. rewrite Hval, decide_False by congruence. done.
Qed.

Lemma picked_filter (a : nat) aggregates (whole : list K) : ∀ fine i,
  (∀ k, fine !! k = whole !! (i + k)) →
  picked a i aggregates fine
  = omap (λ j, whole !! j)
      (filter (λ j, aggregates !! j = Some (Aggregate a)) (seq i (length fine))).
Proof.
  induction fine as [|x fine IH]; intros i Hsuffix; simpl; [done|].
  rewrite filter_cons.
  assert (whole !! i = Some x) as Hx.
  { pose proof (Hsuffix 0) as H0. rewrite Nat.add_0_r in H0. by rewrite <- H0. }
  assert (∀ k, fine !! k = whole !! (S i + k)) as Hnext.
  { intros k. pose proof (Hsuffix (S k)) as Hk. simpl in Hk. rewrite Hk.
    f_equal. lia. }
  destruct (decide (aggregates !! i = Some (Aggregate a))); simpl.
  - rewrite Hx. f_equal. by apply IH.
  - by apply IH.
Qed.

Lemma picked_aggregate_values (a : nat) aggregates fine :
  length fine = length aggregates →
  picked a 0 aggregates fine = aggregate_values a aggregates fine.
Proof.
  intros Hlen. unfold aggregate_values, members. rewrite <- Hlen.
  by apply picked_filter.
Qed.

(** Restriction returns, keeps the size of the coarse vector and leaves in
    entry [a] the sum over the unknowns of aggregate [a]. *)
Lemma restrictVector_spec aggregates coarse fine :
  length fine = length aggregates →
  well_indexed aggregates (length coarse) →
  ∃ coarse',
    Transfer.restrictVector aggregates coarse fine = Ok coarse' ∧
    length coarse' = length coarse ∧
    ∀ a, a < length coarse →
         coarse' !! a = Some (ksum (aggregate_values a aggregates fine)).
Proof.
  intros Hlen Hwf. unfold Transfer.restrictVector.
  destruct (restrict_loop_spec aggregates fine 0 (assign_zero coarse))
    as (coarse' & Hrun & Hl & Hval).
  { lia. } { by rewrite length_assign_zero. }
  exists coarse'. split_and!; [done|by rewrite Hl, length_assign_zero|].
  intros a Ha. rewrite Hval. unfold assign_zero.
  rewrite lookup_replicate_2 by done. simpl.
  by rewrite picked_aggregate_values.
Qed.

Lemma restrictVector_length_only aggregates coarse coarse' fine :
  length coarse = length coarse' →
  Transfer.restrictVector aggregates coarse fine
  = Transfer.restrictVector aggregates coarse' fine.
Proof.
  intros Hlen. unfold Transfer.restrictVector.
  by rewrite (assign_zero_length coarse coarse').
Qed.

Lemma prolongate_loop_spec aggregates coarse (damp : K) fine : ∀ i,
  i + length fine ≤ length aggregates →
  well_indexed aggregates (length coarse) →
  ∃ fine',
    Transfer.prolongate_loop i aggregates coarse damp fine = Ok fine' ∧
    length fine' = length fine ∧
    ∀ k, fine' !! k = prolongated aggregates coarse damp (i + k) <$> fine !! k.
Proof.
  induction fine as [|x fine IH]; intros i Hlen Hwf; simpl.
  - exists []. by split_and!.
  - simpl in Hlen.
    destruct (IH (S i)) as (rest & Hrun & Hl & Hval); [lia|done|].
    destruct (lookup_lt_is_Some_2 aggregates i) as [e He]; [lia|].
    rewrite He, Hrun.
    assert (∀ k head,
      head = prolongated aggregates coarse damp i x →
      (head :: rest) !! k
      = prolongated aggregates coarse damp (i + k) <$> (x :: fine) !! k) as Hcons.
    { intros [|k] head ->; simpl.
      - by rewrite Nat.add_0_r.
      - rewrite Hval. by replace (i + S k) with (S i + k) by lia. }
    destruct e as [a0| |].
    + destruct (lookup_lt_is_Some_2 coarse a0) as [y Hy];
        [by eapply well_indexed_lookup|].
      rewrite Hy. simpl. eexists. split_and!; [done|simpl; by rewrite Hl|].
      intros k. apply Hcons. unfold prolongated. by rewrite He, Hy.
    + simpl. eexists. split_and!; [done|simpl; by rewrite Hl|].
      intros k. apply Hcons. unfold prolongated. by rewrite He.
    + simpl. eexists. split_and!; [done|simpl; by rewrite Hl|].
      intros k. apply Hcons. unfold prolongated. by rewrite He.
Qed.

(** Prolongation returns, keeps the size of the fine vector and changes
    entry [i] to [prolongated ... i]. *)
Lemma prolongateVector_spec aggregates coarse fine (damp : K) :
  length fine = length aggregates →
  well_indexed aggregates (length coarse) →
  ∃ fine',
    Transfer.prolongateVector aggregates coarse fine damp = Ok fine' ∧
    length fine' = length fine ∧
    ∀ i, fine' !! i = prolongated aggregates coarse damp i <$> fine !! i.
Proof.
  intros Hlen Hwf. unfold Transfer.prolongateVector.
  destruct (prolongate_loop_spec aggregates coarse damp fine 0)
    as (fine' & Hrun & Hl & Hval); [lia|done|].
  exists fine'. split_and!; [done..|]. intros i. by rewrite Hval.
Qed.

Lemma omap_constant (c : K) (fine : list K) (l : list nat) :
  (∀ i, i ∈ l → fine !! i = Some c) →
  omap (λ i, fine !! i) l = replicate (length l) c.
Proof.
  induction l as [|i l IH]; intros Hall; simpl; [done|].
  rewrite (Hall i) by apply list_elem_of_here. f_equal.
  apply IH. intros j Hj. apply Hall. by apply list_elem_of_further.
Qed.

Lemma members_lookup (a i : nat) aggregates :
  i ∈ members a aggregates ↔ aggregates !! i = Some (Aggregate a).
Proof.
  unfold members. rewrite list_elem_of_filter, elem_of_seq. split.
  - by intros [? _].
  - intros Hi. split; [done|]. apply lookup_lt_Some in Hi. lia.
Qed.
End TransferFacts.

(** ** AggregationLevelTransferPolicy *)

Section PolicyFacts.
Context {K : Type} `{FieldType K} `{Coarsening K}.
Import AggregationLevelTransferPolicy.
Implicit Types (self : AggregationLevelTransferPolicy.t K) (fine : list K).

Lemma createCoarseLevelSystem_members (fineOperator : Operator K) self :
  let self' := createCoarseLevelSystem fineOperator self in
  prolongDamp_ self' = Some (getProlongationDampingFactor (criterion_ self)) ∧
  aggregatesMap_ self'
  = Some (renumbered (getmat fineOperator) (criterion_ self)).1 ∧
  criterion_ self' = criterion_ self.
Proof.
  unfold createCoarseLevelSystem, renumbered.
  destruct (buildAggregates _ _ _ _) as [built [[[no iso] one] skipped]]. simpl.
  by destruct (coarsen _ _ _ _) as [[excluded aggregatesMap] aggregates].
Qed.

Lemma setCoarseLevel_same self : setCoarseLevel (lhs_ self) (rhs_ self) self = self.
Proof. by destruct self. Qed.

(** C8: after createCoarseLevelSystem the coarse operator is square with as
    many rows as the renumbering counted aggregates, the coarse lhs has as
    many entries as the coarse matrix has columns, and the coarse rhs as
    many as it has rows. *)
Theorem createCoarseLevelSystem_sizes (fineOperator : Operator K) self :
  let self' := createCoarseLevelSystem fineOperator self in
  let aggregates := (renumbered (getmat fineOperator) (criterion_ self)).2 in
  ∃ op,
    getCoarseLevelOperator self' = Some op ∧
    matrix_ self' = Some (getmat op) ∧
    Matrix.N (getmat op) = aggregates ∧
    Matrix.M (getmat op) = aggregates ∧
    length (getCoarseLevelLhs self') = Matrix.M (getmat op) ∧
    length (getCoarseLevelRhs self') = Matrix.N (getmat op).
Proof.
  unfold createCoarseLevelSystem, getCoarseLevelOperator, getCoarseLevelLhs,
    getCoarseLevelRhs.
  unfold renumbered.
  destruct (buildAggregates _ _ _ _) as [built [[[no iso] one] skipped]]. simpl.
  destruct (coarsen _ _ _ _) as [[excluded aggregatesMap] aggregates]. simpl.
  eexists. split; [reflexivity|]. simpl.
  split_and!; try reflexivity; apply length_resize.
Qed.

(** moveToCoarseLevel returns; the state it returns, written out. *)
Lemma moveToCoarseLevel_runs self (aggregates : AggregatesMap) fine :
  aggregatesMap_ self = Some aggregates →
  length fine = length aggregates →
  well_indexed aggregates (length (rhs_ self)) →
  ∃ rhs',
    moveToCoarseLevel fine self
    = Ok (Build rhs' (assign_zero (lhs_ self)) (operator_ self) (prolongDamp_ self)
            (aggregatesMap_ self) (criterion_ self) (matrix_ self)) ∧
    Transfer.restrictVector aggregates (rhs_ self) fine = Ok rhs' ∧
    length rhs' = length (rhs_ self) ∧
    ∀ a, a < length (rhs_ self) →
         rhs' !! a = Some (ksum (aggregate_values a aggregates fine)).
Proof.
  intros Hmap Hlen Hwf.
  destruct (restrictVector_spec aggregates (rhs_ self) fine Hlen Hwf)
    as (rhs' & Hrun & Hl & Hval).
  exists rhs'. split_and!; [|done..].
  unfold moveToCoarseLevel. by rewrite Hmap, Hrun.
Qed.

(** C5: moveToCoarseLevel returns; entry [a] of the coarse rhs becomes the
    sum of the residual over the unknowns of aggregate [a], the coarse lhs
    becomes zero and nothing else in the policy changes.  Calling it again
    with the same residual, also after a coarse solve wrote other values
    into the coarse vectors, ends in the same state. *)
Theorem moveToCoarseLevel_restricts self (aggregates : AggregatesMap) fine :
  aggregatesMap_ self = Some aggregates →
  length fine = length aggregates →
  well_indexed aggregates (length (rhs_ self)) →
  ∃ self',
    moveToCoarseLevel fine self = Ok self' ∧
    length (rhs_ self') = length (rhs_ self) ∧
    (∀ a, a < length (rhs_ self) →
          rhs_ self' !! a = Some (ksum (aggregate_values a aggregates fine))) ∧
    lhs_ self' = replicate (length (lhs_ self)) kzero ∧
    operator_ self' = operator_ self ∧
    prolongDamp_ self' = prolongDamp_ self ∧
    aggregatesMap_ self' = aggregatesMap_ self ∧
    criterion_ self' = criterion_ self ∧
    matrix_ self' = matrix_ self ∧
    moveToCoarseLevel fine self' = Ok self' ∧
    ∀ clhs crhs,
      length clhs = length (lhs_ self) →
      length crhs = length (rhs_ self) →
      moveToCoarseLevel fine (setCoarseLevel clhs crhs self') = Ok self'.
Proof.
  intros Hmap Hlen Hwf.
  destruct (moveToCoarseLevel_runs self aggregates fine Hmap Hlen Hwf)
    as (rhs' & Hrun & Hrestrict & Hl & Hval).
  assert (∀ clhs crhs,
    length clhs = length (lhs_ self) →
    length crhs = length (rhs_ self) →
    moveToCoarseLevel fine
      (Build crhs clhs (operator_ self) (prolongDamp_ self)
         (aggregatesMap_ self) (criterion_ self) (matrix_ self))
    = Ok (Build rhs' (assign_zero (lhs_ self)) (operator_ self)
            (prolongDamp_ self) (aggregatesMap_ self) (criterion_ self)
            (matrix_ self))) as Hagain.
  { intros clhs crhs Hcl Hcr. unfold moveToCoarseLevel. simpl. rewrite Hmap.
    rewrite (restrictVector_length_only aggregates crhs (rhs_ self)) by done.
    rewrite Hrestrict. simpl.
    by rewrite (assign_zero_length clhs (lhs_ self)). }
  eexists. split; [exact Hrun|].
  simpl. split_and!; try done.
  all: try (apply Hagain; [apply length_assign_zero|done]).
  all: intros clhs crhs Hcl Hcr; unfold setCoarseLevel; simpl; by apply Hagain.
Qed.

(** C4: after createCoarseLevelSystem, moveToFineLevel returns a vector of
    the same size in which every unknown of an aggregate [a] has gained the
    criterion's prolongation damping factor times the coarse lhs at [a], and
    every unknown without an aggregate (a skipped one in particular) is as
    it was. *)
Theorem moveToFineLevel_adds_damped_correction
    (fineOperator : Operator K) (self0 : AggregationLevelTransferPolicy.t K)
    (clhs crhs fineLhs : list K) (aggregates : AggregatesMap) :
  let self := setCoarseLevel clhs crhs (createCoarseLevelSystem fineOperator self0) in
  let dampingFactor := getProlongationDampingFactor (criterion_ self0) in
  aggregatesMap_ self = Some aggregates →
  length fineLhs = length aggregates →
  well_indexed aggregates (length clhs) →
  ∃ fineLhs',
    moveToFineLevel fineLhs self = Ok fineLhs' ∧
    length fineLhs' = length fineLhs ∧
    (∀ i a x y,
       aggregates !! i = Some (Aggregate a) →
       fineLhs !! i = Some x →
       clhs !! a = Some y →
       fineLhs' !! i = Some (kadd x (kmul dampingFactor y))) ∧
    (∀ i, aggregates !! i = Some SKIPPED → fineLhs' !! i = fineLhs !! i) ∧
    (∀ i, (∀ a, aggregates !! i ≠ Some (Aggregate a)) →
          fineLhs' !! i = fineLhs !! i).
Proof.
  intros self dampingFactor Hmap Hlen Hwf.
  destruct (createCoarseLevelSystem_members fineOperator self0) as (Hdamp & _ & _).
  destruct (prolongateVector_spec aggregates clhs fineLhs dampingFactor Hlen Hwf)
    as (fineLhs' & Hrun & Hl & Hval).
  assert (∀ i, (∀ a, aggregates !! i ≠ Some (Aggregate a)) →
               fineLhs' !! i = fineLhs !! i) as Hother.
  { intros i Hi. rewrite Hval. unfold prolongated.
    destruct (aggregates !! i) as [[a| |]|] eqn:He;
      [by destruct (Hi a)|by destruct (fineLhs !! i)..]. }
  exists fineLhs'. split_and!; [|done| | |done].
  - unfold moveToFineLevel. subst self. simpl in *.
    by rewrite Hmap, Hdamp.
  - intros i a x y Hi Hx Hy. rewrite Hval, Hx. simpl.
    unfold prolongated. by rewrite Hi, Hy.
  - intros i Hi. apply Hother. intros a. by rewrite Hi.
Qed.

(** C3, as the code has it: with damping factor one, a coarse solve that is
    the identity and a fine vector starting from zero, restriction followed
    by prolongation leaves on every unknown of an aggregate the sum of the
    residual's value [c] over the unknowns of that aggregate, that is [c]
    taken once per unknown; it is [c] itself where the aggregate has a
    single unknown. *)
Theorem restrict_then_prolongate_sums self (aggregates : AggregatesMap)
    (c : nat → K) fine :
  (∀ x : K, kadd kzero x = x) →
  (∀ x : K, kmul kone x = x) →
  aggregatesMap_ self = Some aggregates →
  prolongDamp_ self = Some kone →
  length fine = length aggregates →
  well_indexed aggregates (length (rhs_ self)) →
  (∀ i a, aggregates !! i = Some (Aggregate a) → fine !! i = Some (c a)) →
  ∃ down out,
    moveToCoarseLevel fine self = Ok down ∧
    moveToFineLevel (replicate (length aggregates) kzero)
      (setCoarseLevel (rhs_ down) (rhs_ down) down) = Ok out ∧
    ∀ i a, aggregates !! i = Some (Aggregate a) →
      out !! i = Some (ksum (replicate (length (members a aggregates)) (c a))) ∧
      (length (members a aggregates) = 1 → out !! i = Some (c a)).
Proof.
  intros Hzero Hone Hmap Hdamp Hlen Hwf Hconst.
  destruct (moveToCoarseLevel_runs self aggregates fine Hmap Hlen Hwf)
    as (rhs' & Hdown & _ & Hl & Hval).
  destruct (prolongateVector_spec aggregates rhs'
              (replicate (length aggregates) kzero) kone)
    as (out & Hrun & _ & Hout).
  { apply length_replicate. } { by rewrite Hl. }
  eexists _, out. split; [exact Hdown|]. split.
  { unfold moveToFineLevel, setCoarseLevel. simpl. by rewrite Hmap, Hdamp. }
  intros i a Hi.
  assert (out !! i = Some (ksum (replicate (length (members a aggregates)) (c a))))
    as Hsum.
  { rewrite Hout, lookup_replicate_2 by (by eapply lookup_lt_Some).
    simpl. unfold prolongated. rewrite Hi.
    rewrite Hval by (by eapply well_indexed_lookup). rewrite Hzero, Hone.
    unfold aggregate_values. rewrite (omap_constant (c a)); [done|].
    intros j Hj. apply Hconst. by apply members_lookup. }
  split; [done|]. intros Hsingle. rewrite Hsum, Hsingle. simpl.
  unfold ksum. simpl. by rewrite Hzero.
Qed.

(** C9, as the code has it: on a policy for which createCoarseLevelSystem
    has not run, moveToCoarseLevel and moveToFineLevel go through the null
    [aggregatesMap_] without any check; neither call ends in a failed
    assertion. *)
Theorem transfer_before_create_is_unguarded (crit : Criterion) fine :
  moveToCoarseLevel fine (new crit) = Fault UndefinedBehaviour ∧
  moveToFineLevel fine (new crit) = Fault UndefinedBehaviour ∧
  moveToCoarseLevel fine (new crit) ≠ Fault AssertionFailed ∧
  moveToFineLevel fine (new crit) ≠ Fault AssertionFailed.
Proof. by split_and!. Qed.
End PolicyFacts.

(** ** The coarse solver handle *)

Section HandleFacts.
Context {K : Type} `{AMGSolver K}.
Import OneStepAMGCoarseSolverPolicy.
Import AMGInverseOperator.
Implicit Types (self : AMGInverseOperator.t K) (amg : AMGType K)
  (x b : list K) (log : list (AMGCall K)).

Lemma count_calls_app kind log log' :
  count_calls kind (log ++ log') = count_calls kind log + count_calls kind log'.
Proof. unfold count_calls. by rewrite List.filter_app, length_app. Qed.

Lemma count_calls_applies log :
  Forall (λ c, is_apply c = true) log →
  count_calls is_pre log = 0 ∧ count_calls is_post log = 0 ∧
  count_calls is_apply log = length log.
Proof.
  unfold count_calls.
  induction 1 as [|c log Hc _ (IHpre & IHpost & IHapply)]; [done|].
  destruct c; simpl in *; try discriminate. by rewrite IHapply.
Qed.

(** The first call on a new handle: [pre], then the copy, then [apply]. *)
Lemma apply_first {Res : Type} x b (reduction : Q) (res : Res) amg :
  let handle := (apply x b reduction res (new amg)).2 in
  let started := AMG_pre x b (solver amg) in
  first_ handle = false ∧
  x_ handle = Some started.1.1 ∧
  calls (amg_ handle)
  = calls amg ++ [CallPre x b; CallApply started.1.1 started.1.2].
Proof.
  unfold apply, new, pre, OneStepAMGCoarseSolverPolicy.apply. simpl.
  destruct (AMG_pre x b (solver amg)) as [[x1 b1] s1]. simpl.
  destruct (AMG_apply x1 b1 s1) as [x2 s2]. simpl.
  by rewrite <- app_assoc.
Qed.

(** A later call: [apply] only, and the copy stays. *)
Lemma apply_later {Res : Type} x b (reduction : Q) (res : Res) self :
  first_ self = false →
  let handle := (apply x b reduction res self).2 in
  first_ handle = false ∧
  x_ handle = x_ self ∧
  calls (amg_ handle) = calls (amg_ self) ++ [CallApply x b].
Proof.
  intros Hfirst. unfold apply, OneStepAMGCoarseSolverPolicy.apply.
  rewrite Hfirst. simpl.
  by destruct (AMG_apply x b (solver (amg_ self))) as [x2 s2].
Qed.

Lemma call_later c self :
  first_ self = false →
  first_ (call c self) = false ∧
  x_ (call c self) = x_ self ∧
  ∃ x b, calls (amg_ (call c self)) = calls (amg_ self) ++ [CallApply x b].
Proof.
  intros Hfirst. destruct c as [[x b] [reduction|]]; simpl.
  - destruct (apply_later x b reduction tt self Hfirst) as (? & ? & ?). eauto.
  - destruct (apply_later x b (1 # 100000000)%Q tt self Hfirst) as (? & ? & ?).
    unfold apply3. eauto.
Qed.

Lemma run_later cs : ∀ self,
  first_ self = false →
  first_ (run cs self) = false ∧
  x_ (run cs self) = x_ self ∧
  ∃ log, calls (amg_ (run cs self)) = calls (amg_ self) ++ log ∧
         length log = length cs ∧
         Forall (λ c, is_apply c = true) log.
Proof.
  induction cs as [|c cs IH]; intros self Hfirst; simpl.
  - split_and!; [done..|]. exists []. by rewrite app_nil_r.
  - destruct (call_later c self Hfirst) as (Hf & Hx & x & b & Hlog).
    destruct (IH (call c self) Hf) as (Hf' & Hx' & log & Hlog' & Hlen & Hall).
    split_and!; [done|by rewrite Hx', Hx|].
    exists (CallApply x b :: log). split_and!.
    + by rewrite Hlog', Hlog, <- app_assoc.
    + simpl. by rewrite Hlen.
    + by constructor.
Qed.



(** C7, as the code has it: [apply] hands the result argument back exactly
    as it came in, with either overload; nothing is written into it. *)
Theorem apply_leaves_result_untouched {Res : Type} x b (reduction : Q)
    (res : Res) self :
  (apply x b reduction res self).1.2 = res ∧
  (apply3 x b res self).1.2 = res.
Proof.
  unfold apply3, apply, pre, OneStepAMGCoarseSolverPolicy.apply.
  destruct (first_ self); simpl.
  - destruct (AMG_pre x b (solver (amg_ self))) as [[x1 b1] s1]. simpl.
    by destruct (AMG_apply x1 b1 s1) as [x2 s2].
  - by destruct (AMG_apply x b (solver (amg_ self))) as [x2 s2].
Qed.
End HandleFacts.

(** ** The preconditioner cycle *)

Section CycleFacts.
Context {K : Type} `{FieldType K} `{Coarsening K} `{AMGSolver K}
        `{Smoothing K} `{ResultType}.
Import TwoLevelMethod.

Lemma objects_write (p : vref) (x : list K) (m : Memory) (a : nat) :
  p ≠ Caller a → objects (write p x m) a = objects m a.
Proof.
  intros Hp. destruct p as [a'| |]; simpl; [|done..].
  rewrite decide_False; [done|]. intros ->. by apply Hp.
Qed.

(** Smoothing writes through the three pointers of the context and nowhere
    else. *)
Lemma presmooth_objects (context : LevelContext) (steps : nat) (m : Memory)
    (a : nat) :
  lhs context ≠ Caller a →
  rhs context ≠ Caller a →
  update context ≠ Caller a →
  objects (presmooth context steps m) a = objects m a.
Proof.
  intros Hlhs Hrhs Hupdate. unfold presmooth.
  induction steps as [|steps IH]; simpl; [done|].
  unfold presmooth_sweep at 1.
  destruct (sweep _ _ _) as [[l r] upd].
  by rewrite !objects_write.
Qed.

Lemma apply_body_objects (v d a : nat) (self self' : TwoLevelMethod.t K)
    (objs : nat → list K) (m : Memory) :
  a ≠ v →
  apply_body v d self objs = Ok (self', m) →
  objects m a = objs a.
Proof.
  intros Hne. unfold apply_body.
  destruct (AggregationLevelTransferPolicy.moveToCoarseLevel _ _) as [policy|];
    simpl; [|done].
  destruct (OneStepAMGCoarseSolverPolicy.AMGInverseOperator.apply3 _ _ _ _)
    as [[[clhs crhs] res] coarseSolver].
  destruct (AggregationLevelTransferPolicy.moveToFineLevel _ _) as [fineLhs|];
    simpl; [|done].
  intros [= _ <-].
  rewrite presmooth_objects; simpl; [|congruence..].
  rewrite presmooth_objects; simpl; [done|congruence..].
Qed.

(** With a smoother whose sweeps leave [*context.update] alone, nothing in
    the cycle writes [v]: it comes back as it went in. *)
Lemma apply_body_iterate (v d : nat) (self self' : TwoLevelMethod.t K)
    (objs : nat → list K) (m : Memory) :
  (∀ s op vs, (sweep s op vs).2 = vs.2) →
  apply_body v d self objs = Ok (self', m) →
  objects m v = objs v.
Proof.
  intros Hkeep. unfold apply_body.
  destruct (AggregationLevelTransferPolicy.moveToCoarseLevel _ _) as [policy|];
    simpl; [|done].
  destruct (OneStepAMGCoarseSolverPolicy.AMGInverseOperator.apply3 _ _ _ _)
    as [[[clhs crhs] res] coarseSolver].
  destruct (AggregationLevelTransferPolicy.moveToFineLevel _ _) as [fineLhs|];
    simpl; [|done].
  intros [= _ <-].
  assert (∀ context steps m0,
    lhs context = LocalU → rhs context = LocalRhs → update context = Caller v →
    objects (presmooth context steps m0) v = objects m0 v) as Hsmooth.
  { intros context steps m0 Hl Hr Hu. unfold presmooth.
    induction steps as [|steps IH]; simpl; [done|].
    unfold presmooth_sweep at 1. rewrite Hl, Hr, Hu.
    specialize (Hkeep (smoother context) (matrix context)).
    destruct (sweep _ _ _) as [[l r] upd] eqn:Hsweep.
    apply (f_equal snd) in Hsweep. rewrite Hkeep in Hsweep. simpl in *.
    rewrite decide_True by done. by rewrite <- Hsweep. }
  rewrite Hsmooth by done. simpl. by rewrite Hsmooth.
Qed.

End CycleFacts.

(** ** What a returning transfer went through *)

Section PolicyMore.
Context {K : Type} `{FieldType K} `{Coarsening K}.
Import AggregationLevelTransferPolicy.
Implicit Types (self : AggregationLevelTransferPolicy.t K) (fine : list K).

Lemma moveToCoarseLevel_inv fine self (self' : AggregationLevelTransferPolicy.t K) :
  moveToCoarseLevel fine self = Ok self' →
  ∃ aggregates rhs',
    aggregatesMap_ self = Some aggregates ∧
    Transfer.restrictVector aggregates (rhs_ self) fine = Ok rhs' ∧
    self' = Build rhs' (assign_zero (lhs_ self)) (operator_ self) (prolongDamp_ self)
              (Some aggregates) (criterion_ self) (matrix_ self).
Proof.
  unfold moveToCoarseLevel.
  destruct (aggregatesMap_ self) as [aggregates|] eqn:Hmap; [|done].
  destruct (Transfer.restrictVector _ _ _) as [rhs'|] eqn:Hrestrict; simpl; [|done].
  intros [= <-]. by exists aggregates, rhs'.
Qed.

End PolicyMore.

(** ** The handle, one call at a time *)

Section HandleSteps.
Context {K : Type} `{AMGSolver K}.
Import OneStepAMGCoarseSolverPolicy.
Import AMGInverseOperator.
Implicit Types (self : AMGInverseOperator.t K) (x b : list K).

Lemma apply3_step {Res : Type} x b (res : Res) self :
  let handle := (apply3 x b res self).2 in
  first_ handle = false ∧
  count_calls is_apply (calls (amg_ handle))
  = S (count_calls is_apply (calls (amg_ self))) ∧
  count_calls is_post (calls (amg_ handle)) = count_calls is_post (calls (amg_ self)) ∧
  count_calls is_pre (calls (amg_ handle))
  = count_calls is_pre (calls (amg_ self)) + (if first_ self then 1 else 0) ∧
  calls (amg_ handle) !! length (calls (amg_ self))
  = Some (if first_ self then CallPre x b else CallApply x b).
Proof.
  unfold apply3, apply, pre, OneStepAMGCoarseSolverPolicy.apply.
  destruct (first_ self) eqn:Hfirst; simpl.
  - destruct (AMG_pre x b (solver (amg_ self))) as [[x1 b1] s1]. simpl.
    destruct (AMG_apply x1 b1 s1) as [x2 s2]. simpl.
    rewrite !count_calls_app. unfold count_calls. simpl.
    split_and!; [done|lia|lia|lia|].
    rewrite <- app_assoc. simpl. by apply list_lookup_middle.
  - destruct (AMG_apply x b (solver (amg_ self))) as [x2 s2]. simpl.
    rewrite !count_calls_app. unfold count_calls. simpl.
    split_and!; [done|lia|lia|lia|].
    by apply list_lookup_middle.
Qed.

Lemma apply3_sizes {Res : Type} x b (res : Res) self :
  amg_keeps_sizes →
  length x = length b →
  length (apply3 x b res self).1.1.1 = length x ∧
  length (apply3 x b res self).1.1.2 = length b.
Proof.
  intros Hkeep Hlen.
  unfold apply3, apply, pre, OneStepAMGCoarseSolverPolicy.apply.
  destruct (first_ self); simpl.
  - destruct (Hkeep x b (solver (amg_ self)) Hlen) as (Hx & Hb & _).
    destruct (AMG_pre x b (solver (amg_ self))) as [[x1 b1] s1]. simpl in *.
    destruct (Hkeep x1 b1 s1) as (_ & _ & Hx2); [congruence|].
    destruct (AMG_apply x1 b1 s1) as [x2 s2]. simpl in *.
    split; congruence.
  - destruct (Hkeep x b (solver (amg_ self)) Hlen) as (_ & _ & Hx2).
    destruct (AMG_apply x b (solver (amg_ self))) as [x2 s2]. simpl in *.
    done.
Qed.
End HandleSteps.

(** ** The constructor and repeated cycles *)

Section CycleMore.
Context {K : Type} `{FieldType K} `{Coarsening K} `{AMGSolver K}
        `{Smoothing K} `{ResultType}.
Import TwoLevelMethod.
Implicit Types (self : TwoLevelMethod.t K) (objs : nat → list K).

(** What a returning [apply] went through, step by step. *)
Lemma apply_body_inv (v d : nat) self (self' : TwoLevelMethod.t K) objs (m : Memory) :
  apply_body v d self objs = Ok (self', m) →
  ∃ down fineLhs,
    AggregationLevelTransferPolicy.moveToCoarseLevel
      (local_rhs (presmoothed v d self objs)) (policy_ self) = Ok down ∧
    let solved :=
      OneStepAMGCoarseSolverPolicy.AMGInverseOperator.apply3
        (AggregationLevelTransferPolicy.lhs_ down)
        (AggregationLevelTransferPolicy.rhs_ down)
        InverseOperatorResult_new (coarseSolver_ self) in
    let up :=
      AggregationLevelTransferPolicy.setCoarseLevel solved.1.1.1 solved.1.1.2 down in
    AggregationLevelTransferPolicy.moveToFineLevel
      (local_u (presmoothed v d self objs)) up = Ok fineLhs ∧
    self' = Build (operator_ self) solved.2 (smoother_ self) up
              (preSteps_ self) (postSteps_ self) ∧
    m = presmooth (level_context v self) (postSteps_ self)
          (write LocalU fineLhs (presmoothed v d self objs)).
Proof.
  unfold apply_body, presmoothed, level_context, entry_memory,
    AggregationLevelTransferPolicy.getCoarseLevelLhs,
    AggregationLevelTransferPolicy.getCoarseLevelRhs. simpl.
  destruct (AggregationLevelTransferPolicy.moveToCoarseLevel _ _) as [down|];
    simpl; [|done].
  destruct (OneStepAMGCoarseSolverPolicy.AMGInverseOperator.apply3 _ _ _ _)
    as [[[clhs crhs] res] coarseSolver] eqn:Hsolved. simpl.
  destruct (AggregationLevelTransferPolicy.moveToFineLevel _ _) as [fineLhs|] eqn:Hup;
    simpl; [|done].
  intros [= <- <-]. exists down, fineLhs. by rewrite Hsolved.
Qed.

Lemma apply_inv (v d : nat) self (self' : TwoLevelMethod.t K) objs objs' :
  apply v d self objs = Ok (self', objs') →
  ∃ m, apply_body v d self objs = Ok (self', m) ∧ objs' = objects m.
Proof.
  unfold apply.
  destruct (apply_body v d self objs) as [[self1 m]|]; simpl; [|done].
  intros [= <- <-]. by exists m.
Qed.

Lemma presmooth_sizes (v : nat) self (steps : nat) (m : Memory) :
  sweep_keeps_sizes →
  let m' := presmooth (level_context v self) steps m in
  length (local_u m') = length (local_u m) ∧
  length (local_rhs m') = length (local_rhs m) ∧
  length (objects m' v) = length (objects m v).
Proof.
  intros Hkeep. unfold presmooth.
  induction steps as [|steps (IHu & IHr & IHv)]; simpl; [done|].
  unfold presmooth_sweep at 1 3 5. simpl.
  match goal with
  | |- context [sweep ?s ?op (?l, ?r, ?u)] =>
      destruct (Hkeep s op l r u) as (Hl & Hr & Hu);
      destruct (sweep s op (l, r, u)) as [[l' r'] u']
  end.
  simpl in *. rewrite decide_True by done. split_and!; congruence.
Qed.

(** X3: a returning [apply(v, d)] has written no vector of the caller other
    than [v]. *)
Theorem apply_writes_only_iterate (v d : nat) self (self' : TwoLevelMethod.t K)
    objs objs' :
  apply v d self objs = Ok (self', objs') →
  ∀ a, a ≠ v → objs' a = objs a.
Proof.
  intros Hcall a Hne.
  destruct (apply_inv v d self self' objs objs' Hcall) as (m & Hbody & ->).
  by eapply apply_body_objects.
Qed.

(** X4: [apply] itself never assigns to [v]; with a smoother whose sweeps do
    not write [*context.update], a returning [apply(v, d)] leaves every
    vector of the caller as it was, [v] included. *)
Theorem apply_without_update_changes_nothing (v d : nat) self
    (self' : TwoLevelMethod.t K) objs objs' :
  (∀ s op vs, (sweep s op vs).2 = vs.2) →
  apply v d self objs = Ok (self', objs') →
  ∀ a, objs' a = objs a.
Proof.
  intros Hkeep Hcall a.
  destruct (apply_inv v d self self' objs objs' Hcall) as (m & Hbody & ->).
  destruct (decide (a = v)) as [->|Hne].
  - by eapply apply_body_iterate.
  - by eapply apply_body_objects.
Qed.

(** X5: in every returning cycle the coarse solver handle is called once,
    on the coarse vectors as moveToCoarseLevel left them for the presmoothed
    residual: the coarse lhs it starts from is the zero vector.  It is the
    next call the wrapped AMG sees: its [pre] when the handle was never
    applied before, its [apply] otherwise. *)
Theorem apply_solves_from_zero (v d : nat) self (self' : TwoLevelMethod.t K)
    objs objs' :
  apply v d self objs = Ok (self', objs') →
  ∃ down,
    AggregationLevelTransferPolicy.moveToCoarseLevel
      (local_rhs (presmoothed v d self objs)) (policy_ self) = Ok down ∧
    AggregationLevelTransferPolicy.lhs_ down
    = replicate (length (AggregationLevelTransferPolicy.lhs_ (policy_ self))) kzero ∧
    coarseSolver_ self'
    = (OneStepAMGCoarseSolverPolicy.AMGInverseOperator.apply3
         (AggregationLevelTransferPolicy.lhs_ down)
         (AggregationLevelTransferPolicy.rhs_ down)
         InverseOperatorResult_new (coarseSolver_ self)).2 ∧
    OneStepAMGCoarseSolverPolicy.calls
      (OneStepAMGCoarseSolverPolicy.AMGInverseOperator.amg_ (coarseSolver_ self'))
    !! length (OneStepAMGCoarseSolverPolicy.calls
                 (OneStepAMGCoarseSolverPolicy.AMGInverseOperator.amg_
                    (coarseSolver_ self)))
    = Some (if OneStepAMGCoarseSolverPolicy.AMGInverseOperator.first_
                 (coarseSolver_ self)
            then OneStepAMGCoarseSolverPolicy.CallPre
                   (AggregationLevelTransferPolicy.lhs_ down)
                   (AggregationLevelTransferPolicy.rhs_ down)
            else OneStepAMGCoarseSolverPolicy.CallApply
                   (AggregationLevelTransferPolicy.lhs_ down)
                   (AggregationLevelTransferPolicy.rhs_ down)).
Proof.
  intros Hcall.
  destruct (apply_inv v d self self' objs objs' Hcall) as (m & Hbody & _).
  destruct (apply_body_inv v d self self' objs m Hbody)
    as (down & fineLhs & Hdown & _ & -> & _).
  destruct (moveToCoarseLevel_inv _ _ _ Hdown) as (aggregates & rhs' & _ & _ & Heq).
  exists down. split; [done|]. split; [by rewrite Heq|]. split; [done|]. simpl.
  by destruct (apply3_step (AggregationLevelTransferPolicy.lhs_ down)
                 (AggregationLevelTransferPolicy.rhs_ down)
                 InverseOperatorResult_new (coarseSolver_ self))
    as (_ & _ & _ & _ & Hnext).
Qed.

Lemma apply_handle_step (v d : nat) self (self' : TwoLevelMethod.t K) objs objs' :
  apply v d self objs = Ok (self', objs') →
  ∃ x b, coarseSolver_ self'
         = (OneStepAMGCoarseSolverPolicy.AMGInverseOperator.apply3 x b
              InverseOperatorResult_new (coarseSolver_ self)).2.
Proof.
  intros Hcall.
  destruct (apply_inv v d self self' objs objs' Hcall) as (m & Hbody & _).
  destruct (apply_body_inv v d self self' objs m Hbody)
    as (down & fineLhs & _ & _ & -> & _).
  by eexists _, _.
Qed.


Lemma apply_configuration (v d : nat) self (self' : TwoLevelMethod.t K) objs objs' :
  apply v d self objs = Ok (self', objs') →
  operator_ self' = operator_ self ∧ smoother_ self' = smoother_ self ∧
  preSteps_ self' = preSteps_ self ∧ postSteps_ self' = postSteps_ self ∧
  AggregationLevelTransferPolicy.operator_ (policy_ self')
  = AggregationLevelTransferPolicy.operator_ (policy_ self) ∧
  AggregationLevelTransferPolicy.matrix_ (policy_ self')
  = AggregationLevelTransferPolicy.matrix_ (policy_ self) ∧
  AggregationLevelTransferPolicy.aggregatesMap_ (policy_ self')
  = AggregationLevelTransferPolicy.aggregatesMap_ (policy_ self) ∧
  AggregationLevelTransferPolicy.prolongDamp_ (policy_ self')
  = AggregationLevelTransferPolicy.prolongDamp_ (policy_ self) ∧
  AggregationLevelTransferPolicy.criterion_ (policy_ self')
  = AggregationLevelTransferPolicy.criterion_ (policy_ self).
Proof.
  intros Hcall.
  destruct (apply_inv v d self self' objs objs' Hcall) as (m & Hbody & _).
  destruct (apply_body_inv v d self self' objs m Hbody)
    as (down & fineLhs & Hdown & _ & -> & _).
  destruct (moveToCoarseLevel_inv _ _ _ Hdown) as (aggregates & rhs' & Hmap & _ & ->).
  simpl. by rewrite Hmap.
Qed.

(** X8: no cycle rebuilds or changes the coarse system: after any number of
    returning cycles the method has the fine operator, smoother and step
    counts it had, and its transfer policy the coarse operator, coarse
    matrix, aggregates map, damping factor and criterion it had. *)
Theorem cycles_keep_coarse_system (cs : list (nat * nat)) : ∀ self
    (self' : TwoLevelMethod.t K) objs objs',
  cycles cs self objs = Ok (self', objs') →
  operator_ self' = operator_ self ∧ smoother_ self' = smoother_ self ∧
  preSteps_ self' = preSteps_ self ∧ postSteps_ self' = postSteps_ self ∧
  AggregationLevelTransferPolicy.operator_ (policy_ self')
  = AggregationLevelTransferPolicy.operator_ (policy_ self) ∧
  AggregationLevelTransferPolicy.matrix_ (policy_ self')
  = AggregationLevelTransferPolicy.matrix_ (policy_ self) ∧
  AggregationLevelTransferPolicy.aggregatesMap_ (policy_ self')
  = AggregationLevelTransferPolicy.aggregatesMap_ (policy_ self) ∧
  AggregationLevelTransferPolicy.prolongDamp_ (policy_ self')
  = AggregationLevelTransferPolicy.prolongDamp_ (policy_ self) ∧
  AggregationLevelTransferPolicy.criterion_ (policy_ self')
  = AggregationLevelTransferPolicy.criterion_ (policy_ self).
Proof.
  induction cs as [|[v d] cs IH]; intros self self' objs objs'; simpl.
  - by intros [= <- <-].
  - destruct (apply v d self objs) as [[self1 objs1]|] eqn:Hcall; simpl; [|done].
    intros Hrest.
    destruct (apply_configuration v d self self1 objs objs1 Hcall)
      as (E1 & E2 & E3 & E4 & E5 & E6 & E7 & E8 & E9).
    destruct (IH self1 self' objs1 objs' Hrest)
      as (I1 & I2 & I3 & I4 & I5 & I6 & I7 & I8 & I9).
    split_and!; congruence.
Qed.

(** One cycle of a ready method returns and leaves it ready. *)
Lemma apply_ready_step (aggregates : AggregatesMap) (v d : nat) self objs :
  sweep_keeps_sizes →
  amg_keeps_sizes →
  ready aggregates self →
  length (objs v) = length aggregates →
  length (objs d) = length aggregates →
  ∃ self' objs',
    apply v d self objs = Ok (self', objs') ∧
    ready aggregates self' ∧
    ∀ a, length (objs' a) = length (objs a).
Proof.
  intros Hsweep Hamg (Hmap & [damp Hdamp] & Hsame & Hwf) Hv Hd.
  destruct (presmooth_sizes v self (preSteps_ self) (entry_memory v d objs) Hsweep)
    as (Hu1 & Hr1 & Hv1). simpl in Hu1, Hr1, Hv1.
  fold (presmoothed v d self objs) in Hu1, Hr1, Hv1.
  destruct (moveToCoarseLevel_runs (policy_ self) aggregates
              (local_rhs (presmoothed v d self objs)) Hmap)
    as (rhs' & Hdown & _ & Hl & _); [congruence|done|].
  destruct (apply3_sizes
              (assign_zero (AggregationLevelTransferPolicy.lhs_ (policy_ self))) rhs'
              InverseOperatorResult_new (coarseSolver_ self) Hamg)
    as (Hx & Hb).
  { rewrite length_assign_zero. congruence. }
  rewrite length_assign_zero in Hx.
  unfold apply, apply_body.
  fold (entry_memory v d objs). fold (level_context v self).
  fold (presmoothed v d self objs). simpl. rewrite Hdown. simpl.
  destruct (OneStepAMGCoarseSolverPolicy.AMGInverseOperator.apply3 _ _ _ _)
    as [[[clhs crhs] res] coarseSolver]. simpl in Hx, Hb.
  destruct (prolongateVector_spec aggregates clhs
              (local_u (presmoothed v d self objs)) damp)
    as (fineLhs & Hup & Hfl & _); [congruence|by rewrite Hx, Hsame|].
  unfold AggregationLevelTransferPolicy.moveToFineLevel at 1. simpl.
  rewrite Hmap, Hdamp, Hup. simpl.
  eexists _, _. split; [reflexivity|]. split.
  - unfold ready. simpl.
    split_and!; [done|by eexists|congruence|]. by rewrite Hb, Hl.
  - intros a.
    match goal with
    | |- context [presmooth _ _ ?m2] =>
        destruct (presmooth_sizes v self (postSteps_ self) m2 Hsweep) as (_ & _ & Hv2)
    end.
    simpl in Hv2. destruct (decide (a = v)) as [->|Hne].
    + rewrite Hv2. congruence.
    + rewrite presmooth_objects by (simpl; congruence). simpl.
      unfold presmoothed. by rewrite presmooth_objects by (simpl; congruence).
Qed.
(** X7: on a method whose transfer policy holds a coarse system, any number
    of cycles return, when every vector passed has one entry per entry of the
    aggregates map and the smoother and the AMG return vectors of the sizes
    they get.  The method is then still ready for a cycle and every vector of
    the caller has the size it had: no cycle runs into a null pointer or an
    index out of range. *)
Theorem cycles_return_when_ready (aggregates : AggregatesMap)
    (cs : list (nat * nat)) : ∀ self objs,
  sweep_keeps_sizes →
  amg_keeps_sizes →
  ready aggregates self →
  (∀ v d, (v, d) ∈ cs →
          length (objs v) = length aggregates ∧ length (objs d) = length aggregates) →
  ∃ self' objs',
    cycles cs self objs = Ok (self', objs') ∧
    ready aggregates self' ∧
    ∀ a, length (objs' a) = length (objs a).
Proof.
  induction cs as [|[v d] cs IH]; intros self objs Hsweep Hamg Hready Hsizes; simpl.
  - by exists self, objs.
  - destruct (Hsizes v d) as (Hv & Hd); [apply list_elem_of_here|].
    destruct (apply_ready_step aggregates v d self objs Hsweep Hamg Hready Hv Hd)
      as (self1 & objs1 & Hcall & Hready1 & Hkeep1).
    rewrite Hcall. simpl.
    destruct (IH self1 objs1 Hsweep Hamg Hready1) as (self' & objs' & Hrest & Hready' & Hkeep').
    { intros v' d' Hin. rewrite !Hkeep1. apply Hsizes. by apply list_elem_of_further. }
    exists self', objs'. split_and!; [done..|].
    intros a. by rewrite Hkeep', Hkeep1.
Qed.

Lemma createCoarseLevelSystem_lengths (op : Operator K)
    (policy : AggregationLevelTransferPolicy.t K) :
  let built := AggregationLevelTransferPolicy.createCoarseLevelSystem op policy in
  let count :=
    (renumbered (getmat op) (AggregationLevelTransferPolicy.criterion_ policy)).2 in
  length (AggregationLevelTransferPolicy.lhs_ built) = count ∧
  length (AggregationLevelTransferPolicy.rhs_ built) = count.
Proof.
  unfold AggregationLevelTransferPolicy.createCoarseLevelSystem, renumbered.
  destruct (buildAggregates _ _ _ _) as [built [[[no iso] one] skipped]]. simpl.
  destruct (coarsen _ _ _ _) as [[excluded aggregatesMap] aggregates]. simpl.
  by rewrite !length_resize.
Qed.

(** X10: whenever the aggregation and renumbering that the constructor
    called return a map whose aggregate ids are all below the aggregate
    count they return, the method is ready for its cycles: the aggregates map
    and the damping factor are set, and the coarse lhs and the coarse rhs
    have exactly that count of entries. *)
Theorem constructor_makes_ready (op : Operator K) (smoother : Smoother)
    (policy : AggregationLevelTransferPolicy.t K)
    (coarsePolicy coarsePolicy' : OneStepAMGCoarseSolverPolicy.t K)
    (preSteps postSteps : nat) (method : TwoLevelMethod.t K) :
  let result :=
    renumbered (getmat op) (AggregationLevelTransferPolicy.criterion_ policy) in
  well_indexed result.1 result.2 →
  TwoLevelMethod.new op smoother policy coarsePolicy preSteps postSteps
  = Ok (method, coarsePolicy') →
  ready result.1 method ∧
  AggregationLevelTransferPolicy.aggregatesMap_ (policy_ method) = Some result.1 ∧
  AggregationLevelTransferPolicy.prolongDamp_ (policy_ method)
  = Some (getProlongationDampingFactor
            (AggregationLevelTransferPolicy.criterion_ policy)) ∧
  length (AggregationLevelTransferPolicy.lhs_ (policy_ method)) = result.2 ∧
  length (AggregationLevelTransferPolicy.rhs_ (policy_ method)) = result.2.
Proof.
  intros result Hwf. unfold TwoLevelMethod.new.
  destruct (OneStepAMGCoarseSolverPolicy.createCoarseLevelSolver _ _)
    as [[coarseSolver cp]|]; simpl; [|done].
  intros [= <- _]. unfold ready. simpl.
  destruct (createCoarseLevelSystem_members op policy) as (Hdamp & Hmap & _).
  destruct (createCoarseLevelSystem_lengths op policy) as (Hl & Hr).
  rewrite Hmap, Hdamp, Hl, Hr. split_and!; [done|by eexists|done..].
Qed.
End CycleMore.

(** ** The statements on the small instance *)

Import Fixture.

(** C5 on two unknowns in one aggregate: the residual [3; 4] is restricted to
    7, the coarse lhs is zero, and a second call changes nothing. *)
Lemma moveToCoarseLevel_restricts_witness :
  let self := Fixture.coarse_policy 2 1 [Aggregate 0; Aggregate 0] 1 in
  AggregationLevelTransferPolicy.aggregatesMap_ self = Some [Aggregate 0; Aggregate 0] ∧
  length [3; 4]%Z = length [Aggregate 0; Aggregate 0] ∧
  well_indexed [Aggregate 0; Aggregate 0]
    (length (AggregationLevelTransferPolicy.rhs_ self)) ∧
  ∃ self',
    AggregationLevelTransferPolicy.moveToCoarseLevel [3; 4]%Z self = Ok self' ∧
    AggregationLevelTransferPolicy.rhs_ self' !! 0 = Some 7%Z ∧
    AggregationLevelTransferPolicy.lhs_ self' = [0%Z] ∧
    AggregationLevelTransferPolicy.moveToCoarseLevel [3; 4]%Z self' = Ok self'.
Proof.
  intros self.
  assert (well_indexed [Aggregate 0; Aggregate 0]
            (length (AggregationLevelTransferPolicy.rhs_ self))) as Hwf.
  { repeat constructor. }
  split_and!; [reflexivity|reflexivity|exact Hwf|].
  destruct (moveToCoarseLevel_restricts self [Aggregate 0; Aggregate 0] [3; 4]%Z
              eq_refl eq_refl Hwf)
    as (self' & Hrun & _ & Hval & Hlhs & _ & _ & _ & _ & _ & Hagain & _).
  exists self'. split_and!; [exact Hrun| |exact Hlhs|exact Hagain].
  apply (Hval 0). simpl. lia.
Defined.

(** C4 with damping factor 3 and coarse lhs 5: the unknown of aggregate 0
    goes from 10 to 25, the skipped unknown stays at 20. *)
Lemma moveToFineLevel_adds_damped_correction_witness :
  let aggregates := [Aggregate 0; SKIPPED] in
  let self :=
    AggregationLevelTransferPolicy.setCoarseLevel [5%Z] [5%Z]
      (AggregationLevelTransferPolicy.createCoarseLevelSystem (Fixture.identity 2)
         (Fixture.policy 3 aggregates 1)) in
  AggregationLevelTransferPolicy.aggregatesMap_ self = Some aggregates ∧
  length [10; 20]%Z = length aggregates ∧
  well_indexed aggregates (length [5%Z]) ∧
  ∃ fineLhs',
    AggregationLevelTransferPolicy.moveToFineLevel [10; 20]%Z self = Ok fineLhs' ∧
    fineLhs' !! 0 = Some 25%Z ∧
    fineLhs' !! 1 = Some 20%Z.
Proof.
  intros aggregates self.
  assert (well_indexed aggregates (length [5%Z])) as Hwf.
  { repeat constructor. }
  split_and!; [reflexivity|reflexivity|exact Hwf|].
  destruct (moveToFineLevel_adds_damped_correction (Fixture.identity 2)
              (Fixture.policy 3 aggregates 1) [5%Z] [5%Z] [10; 20]%Z aggregates
              eq_refl eq_refl Hwf)
    as (fineLhs' & Hrun & _ & Hadd & Hskip & _).
  exists fineLhs'. split_and!; [exact Hrun| |].
  - exact (Hadd 0 0 10%Z 5%Z eq_refl eq_refl eq_refl).
  - exact (Hskip 1 eq_refl).
Defined.

(** C3 on an aggregate of two unknowns with residual 4 and an aggregate of
    one unknown with residual 9: the two end with 8, the one with 9. *)
Lemma restrict_then_prolongate_sums_witness :
  let aggregates := [Aggregate 0; Aggregate 0; Aggregate 1] in
  let self := Fixture.coarse_policy 3 1 aggregates 2 in
  let c := λ a : nat, match a with 0 => 4%Z | _ => 9%Z end in
  (∀ x : Z, kadd kzero x = x) ∧
  (∀ x : Z, kmul kone x = x) ∧
  AggregationLevelTransferPolicy.aggregatesMap_ self = Some aggregates ∧
  AggregationLevelTransferPolicy.prolongDamp_ self = Some kone ∧
  length [4; 4; 9]%Z = length aggregates ∧
  well_indexed aggregates (length (AggregationLevelTransferPolicy.rhs_ self)) ∧
  (∀ i a, aggregates !! i = Some (Aggregate a) → [4; 4; 9]%Z !! i = Some (c a)) ∧
  ∃ down out,
    AggregationLevelTransferPolicy.moveToCoarseLevel [4; 4; 9]%Z self = Ok down ∧
    AggregationLevelTransferPolicy.moveToFineLevel (replicate (length aggregates) kzero)
      (AggregationLevelTransferPolicy.setCoarseLevel
         (AggregationLevelTransferPolicy.rhs_ down)
         (AggregationLevelTransferPolicy.rhs_ down) down) = Ok out ∧
    out !! 0 = Some 8%Z ∧ out !! 1 = Some 8%Z ∧ out !! 2 = Some 9%Z.
Proof.
  intros aggregates self c.
  assert (∀ x : Z, kadd kzero x = x) as Hzero by (intros x; simpl; lia).
  assert (∀ x : Z, kmul kone x = x) as Hone by (intros x; simpl; lia).
  assert (well_indexed aggregates
            (length (AggregationLevelTransferPolicy.rhs_ self))) as Hwf.
  { repeat constructor. }
  assert (∀ i a, aggregates !! i = Some (Aggregate a) → [4; 4; 9]%Z !! i = Some (c a))
    as Hconst.
  { intros [|[|[|i]]] a Hi; simpl in Hi; inversion Hi; reflexivity. }
  split_and!; [exact Hzero|exact Hone|reflexivity|reflexivity|reflexivity
              |exact Hwf|exact Hconst|].
  destruct (restrict_then_prolongate_sums self aggregates c [4; 4; 9]%Z
              Hzero Hone eq_refl eq_refl eq_refl Hwf Hconst)
    as (down & out & Hdown & Hout & Hsum).
  exists down, out. split_and!; [exact Hdown|exact Hout| | |].
  - exact (proj1 (Hsum 0 0 eq_refl)).
  - exact (proj1 (Hsum 1 0 eq_refl)).
  - exact (proj2 (Hsum 2 1 eq_refl) eq_refl).
Defined.

(** C3, as the spec states it, fails where an aggregate has two unknowns:
    the residual is 1 on both, and both end with 2. *)
Lemma restrict_then_prolongate_not_identity :
  ¬ reproduces (Fixture.coarse_policy 2 1 [Aggregate 0; Aggregate 0] 1)
      [Aggregate 0; Aggregate 0] (λ _, 1%Z) [1; 1]%Z.
Proof.
  intros (down & out & Hdown & Hout & Hc).
  vm_compute in Hdown. injection Hdown as <-.
  vm_compute in Hout. injection Hout as <-.
  specialize (Hc 0 0 eq_refl). discriminate Hc.
Qed.

(** C9, as the spec states it, fails on a policy that was only constructed:
    the calls do not end in a failed assertion. *)
Lemma transfer_before_create_not_asserted :
  ¬ asserts_sequencing (Fixture.policy 1 [Aggregate 0] 1) [1%Z].
Proof. intros [Hdown _]. discriminate Hdown. Qed.

(** C7, as the spec states it, fails: a caller that leaves [true] in the
    result finds [true] after the call, one that leaves [false] finds
    [false]; the call has reported nothing. *)
Lemma result_not_reported : ¬ reports_into_result (K := Z) bool.
Proof.
  intros Hreports.
  specialize (Hreports [0%Z] [1%Z] true false Fixture.handle).
  vm_compute in Hreports. discriminate Hreports.
Qed.


(** C1 on the identity of size one, a smoother that does nothing, one
    aggregate, damping factor one and an exact coarse solve, with one sweep
    before and one after the correction: for [v = 0] and [d = 5] the cycle
    ends with the corrected iterate 5 in the local [u], and [apply] returns
    with [v] still 0. *)
Theorem apply_leaves_correction_in_local :
  ∃ method self' m objs',
    two_level 1 1 [Aggregate 0] 1 1 1 = Ok method ∧
    TwoLevelMethod.apply_body 0 1 method (objects [0%Z] [5%Z]) = Ok (self', m) ∧
    TwoLevelMethod.local_u m = [5%Z] ∧
    TwoLevelMethod.apply 0 1 method (objects [0%Z] [5%Z]) = Ok (self', objs') ∧
    objs' 0 = [0%Z] ∧
    objs' 0 ≠ TwoLevelMethod.local_u m.
Proof.
  eexists _, _, _, _. split; [reflexivity|]. split; [reflexivity|].
  split; [reflexivity|]. split; [reflexivity|]. split; [reflexivity|].
  discriminate.
Qed.

(** ** The constructor and the cycles on two unknowns in one aggregate *)

Lemma toy_sweep_keeps_update :
  ∀ (s : Smoother) (op : Operator Z) (vs : list Z * list Z * list Z),
    (sweep s op vs).2 = vs.2.
Proof. intros s op vs. reflexivity. Defined.

Lemma toy_sweep_keeps_sizes : sweep_keeps_sizes (K := Z).
Proof. intros s op l r u. simpl. by split_and!. Defined.

Lemma toy_amg_keeps_sizes : amg_keeps_sizes (K := Z).
Proof. intros x b s Hlen. simpl. split_and!; congruence. Defined.

(** X3 on the scenario: after one cycle [d] at address 1 and the vector at
    address 7 are as before. *)
Lemma apply_writes_only_iterate_witness :
  ∃ method,
    Scenario.method = Ok method ∧
    ∃ self' objs',
      TwoLevelMethod.apply 0 1 method Scenario.vectors = Ok (self', objs') ∧
      objs' 1 = Scenario.vectors 1 ∧ objs' 7 = Scenario.vectors 7.
Proof.
  eexists. split; [reflexivity|].
  match goal with
  | |- ∃ self' objs', ?call = _ ∧ _ =>
      destruct call as [[self' objs']|f] eqn:Hcall
  end.
  - exists self', objs'. split; [reflexivity|].
    split; apply (apply_writes_only_iterate 0 1 _ _ _ _ Hcall); lia.
  - vm_compute in Hcall. discriminate Hcall.
Defined.

(** X4 on the scenario: the smoother that does nothing writes no update, and
    after one cycle [v] at address 0 is as before. *)
Lemma apply_without_update_changes_nothing_witness :
  (∀ (s : Smoother) (op : Operator Z) (vs : list Z * list Z * list Z),
     (sweep s op vs).2 = vs.2) ∧
  ∃ method,
    Scenario.method = Ok method ∧
    ∃ self' objs',
      TwoLevelMethod.apply 0 1 method Scenario.vectors = Ok (self', objs') ∧
      objs' 0 = Scenario.vectors 0.
Proof.
  split; [exact toy_sweep_keeps_update|].
  eexists. split; [reflexivity|].
  match goal with
  | |- ∃ self' objs', ?call = _ ∧ _ =>
      destruct call as [[self' objs']|f] eqn:Hcall
  end.
  - exists self', objs'. split; [reflexivity|].
    exact (apply_without_update_changes_nothing 0 1 _ _ _ _
             toy_sweep_keeps_update Hcall 0).
  - vm_compute in Hcall. discriminate Hcall.
Defined.

(** X5 on the scenario: the first call the AMG sees in the first cycle is
    its [pre], on the coarse lhs 0. *)
Lemma apply_solves_from_zero_witness :
  ∃ method,
    Scenario.method = Ok method ∧
    ∃ self' objs' r,
      TwoLevelMethod.apply 0 1 method Scenario.vectors = Ok (self', objs') ∧
      OneStepAMGCoarseSolverPolicy.calls
        (OneStepAMGCoarseSolverPolicy.AMGInverseOperator.amg_
           (TwoLevelMethod.coarseSolver_ self')) !! 0
      = Some (OneStepAMGCoarseSolverPolicy.CallPre [0%Z] r).
Proof.
  eexists. split; [reflexivity|].
  match goal with
  | |- ∃ self' objs' r, ?call = _ ∧ _ =>
      destruct call as [[self' objs']|f] eqn:Hcall
  end.
  - destruct (apply_solves_from_zero 0 1 _ _ _ _ Hcall)
      as (down & _ & Hzero & _ & Hnext).
    exists self', objs', (AggregationLevelTransferPolicy.rhs_ down).
    split; [reflexivity|]. rewrite Hzero in Hnext. exact Hnext.
  - vm_compute in Hcall. discriminate Hcall.
Defined.


(** X8 on the scenario: after three cycles the transfer policy holds the
    aggregates map and the damping factor it was built with. *)
Lemma cycles_keep_coarse_system_witness :
  ∃ method,
    Scenario.method = Ok method ∧
    ∃ self' objs',
      cycles [(0, 1); (0, 1); (0, 1)] method Scenario.vectors = Ok (self', objs') ∧
      AggregationLevelTransferPolicy.aggregatesMap_ (TwoLevelMethod.policy_ self')
      = Some Scenario.pair_map ∧
      AggregationLevelTransferPolicy.prolongDamp_ (TwoLevelMethod.policy_ self')
      = Some 1%Z.
Proof.
  eexists. split; [reflexivity|].
  match goal with
  | |- ∃ self' objs', ?call = _ ∧ _ =>
      destruct call as [[self' objs']|f] eqn:Hcall
  end.
  - exists self', objs'. split; [reflexivity|].
    destruct (cycles_keep_coarse_system _ _ _ _ _ Hcall)
      as (_ & _ & _ & _ & _ & _ & Hmap & Hdamp & _).
    split; [exact Hmap|exact Hdamp].
  - vm_compute in Hcall. discriminate Hcall.
Defined.

(** X10 on the scenario: both unknowns are in aggregate 0 and the count is
    one, so the method its constructor returns is ready, with one entry in
    the coarse lhs and one in the coarse rhs. *)
Lemma constructor_makes_ready_witness :
  well_indexed Scenario.pair_map 1 ∧
  ∃ method,
    Scenario.method = Ok method ∧
    ready Scenario.pair_map method ∧
    length (AggregationLevelTransferPolicy.lhs_ (TwoLevelMethod.policy_ method)) = 1 ∧
    length (AggregationLevelTransferPolicy.rhs_ (TwoLevelMethod.policy_ method)) = 1.
Proof.
  assert (well_indexed Scenario.pair_map 1) as Hwf by repeat constructor.
  split; [exact Hwf|].
  eexists. split; [reflexivity|].
  destruct (constructor_makes_ready (identity 2) (tt : @Smoother Z toy_smoothing)
              (policy 1 Scenario.pair_map 1)
              (@OneStepAMGCoarseSolverPolicy.new Z toy_amg tt tt) _ 1 1 _ Hwf eq_refl)
    as (Hready & _ & _ & Hl & Hr).
  split_and!; [exact Hready|exact Hl|exact Hr].
Defined.

(** X7 on the scenario: the smoother and the AMG of the instance keep sizes,
    the method is ready, the vectors have two entries, and three cycles
    return with the method still ready. *)
Lemma cycles_return_when_ready_witness :
  sweep_keeps_sizes (K := Z) ∧
  amg_keeps_sizes (K := Z) ∧
  ∃ method,
    Scenario.method = Ok method ∧
    ready Scenario.pair_map method ∧
    (∀ v d, (v, d) ∈ [(0, 1); (0, 1); (0, 1)] →
            length (Scenario.vectors v) = length Scenario.pair_map ∧
            length (Scenario.vectors d) = length Scenario.pair_map) ∧
    ∃ self' objs',
      cycles [(0, 1); (0, 1); (0, 1)] method Scenario.vectors = Ok (self', objs') ∧
      ready Scenario.pair_map self'.
Proof.
  split; [exact toy_sweep_keeps_sizes|]. split; [exact toy_amg_keeps_sizes|].
  eexists. split; [reflexivity|].
  match goal with
  | |- ready _ ?m ∧ _ =>
      assert (ready Scenario.pair_map m) as Hready
  end.
  { unfold ready. simpl. split_and!; [reflexivity|by eexists|reflexivity|].
    repeat constructor. }
  assert (∀ v d, (v, d) ∈ [(0, 1); (0, 1); (0, 1)] →
                 length (Scenario.vectors v) = length Scenario.pair_map ∧
                 length (Scenario.vectors d) = length Scenario.pair_map) as Hsizes.
  { intros v d Hin.
    repeat (apply elem_of_cons in Hin as [Hin|Hin]; [by injection Hin as -> ->|]).
    by apply elem_of_nil in Hin. }
  split; [exact Hready|]. split; [exact Hsizes|].
  destruct (cycles_return_when_ready Scenario.pair_map [(0, 1); (0, 1); (0, 1)] _
              Scenario.vectors toy_sweep_keeps_sizes toy_amg_keeps_sizes Hready Hsizes)
    as (self' & objs' & Hcall & Hready' & _).
  by exists self', objs'.
Defined.

